(** * k8s-net-attach-def-controller: a shallow embedding of pkg/controller

    This development embeds the controller of
    k8snetworkplumbingwg/k8s-net-attach-def-controller (files
    [pkg/controller/controller.go] and [pkg/controller/utils.go]) and the
    library functions it relies on (Go's [strings.Split],
    [strings.TrimSpace], [regexp], [encoding/json], client-go's
    [cache.SplitMetaNamespaceKey] and work queue, and the Kubernetes helpers
    [podutil.FindPort] and [endpoints.RepackSubsets]).

    Go strings are byte strings; they are modelled by [string] (a list of
    8-bit [ascii] characters).  Go maps are [gmap]s. *)

From Stdlib Require Import String Ascii ZArith Bool Lia.
From stdpp Require Import base gmap strings list.

Open Scope string_scope.
Open Scope list_scope.
Set Warnings "-register-all".


(* ================================================================= *)
(** ** Go standard library: strings *)

Definition dquote : ascii := "034"%char.
Definition backslash : ascii := "092"%char.

(** [strings.Split(s, sep)] for a one-byte separator: the pieces between
    the separators, [[""]] for the empty string. *)
Fixpoint Split (s : string) (sep : ascii) : list string :=
  match s with
  | EmptyString => [""]
  | String c r =>
      let rest := Split r sep in
      if Ascii.eqb c sep then "" :: rest
      else match rest with
           | [] => [String c ""]
           | x :: xs => String c x :: xs
           end
  end.

(** [unicode.IsSpace] on the ASCII range: '\t', '\n', '\v', '\f', '\r', ' '. *)
Definition asciiSpace (c : ascii) : bool :=
  match nat_of_ascii c with
  | 9 | 10 | 11 | 12 | 13 | 32 => true
  | _ => false
  end.

Definition byte_str (l : list nat) : string :=
  fold_right (fun n s => String (ascii_of_nat n) s) EmptyString l.

(** UTF-8 encodings of the non-ASCII runes for which [unicode.IsSpace]
    holds: U+0085, U+00A0, U+1680, U+2000..U+200A, U+2028, U+2029, U+202F,
    U+205F, U+3000. *)
Definition unicodeSpaceSeqs : list string :=
  [byte_str [194; 133]; byte_str [194; 160]; byte_str [225; 154; 128]]
  ++ map (fun k => byte_str [226; 128; 128 + k]) (seq 0 11)
  ++ [byte_str [226; 128; 168]; byte_str [226; 128; 169];
      byte_str [226; 128; 175]; byte_str [226; 129; 159];
      byte_str [227; 128; 128]].

Definition string_rev (s : string) : string :=
  string_of_list_ascii (rev (list_ascii_of_string s)).

(** Strip one leading space rune, if there is one. *)
Definition strip_space_prefix (seqs : list string) (s : string) : option string :=
  match s with
  | String c r =>
      if asciiSpace c then Some r
      else match find (fun p => String.prefix p s) seqs with
           | Some p => Some (substring (String.length p) (String.length s) s)
           | None => None
           end
  | EmptyString => None
  end.

Fixpoint trim_left_fuel (fuel : nat) (seqs : list string) (s : string) : string :=
  match fuel with
  | O => s
  | S f => match strip_space_prefix seqs s with
           | Some r => trim_left_fuel f seqs r
           | None => s
           end
  end.

(** [strings.TrimSpace]: remove leading and trailing white-space runes.
    Trailing runes are stripped by stripping the reversed encodings from
    the reversed string (a valid encoding at the end of a string is
    decoded by [utf8.DecodeLastRune] exactly as it is matched here). *)
Definition TrimSpace (s : string) : string :=
  let l := trim_left_fuel (String.length s) unicodeSpaceSeqs s in
  string_rev (trim_left_fuel (String.length l) (map string_rev unicodeSpaceSeqs)
                             (string_rev l)).

(* ================================================================= *)
(** ** Go standard library: [strconv.Quote], the [%q] verb of [fmt]

    Go 1.12's [appendQuotedWith] with a double quote, ASCIIonly and graphicOnly false: each rune
    decoded by [utf8.DecodeRuneInString] is written by
    [appendEscapedRune]; a byte that starts no valid encoding is written
    as [\xHH].  [unicode.IsPrint] is exact below U+0100; runes from U+0100
    on are taken as printable (Go's tables, which escape unassigned,
    private-use, format and separator runes there, are not modelled). *)

Definition lowerhex (n : N) : ascii :=
  match String.get (N.to_nat n) "0123456789abcdef" with
  | Some c => c
  | None => "0"%char
  end.

(** The [k] lowest hex digits of [r], most significant first. *)
Fixpoint hex_digits (k : nat) (r : N) : string :=
  match k with
  | O => EmptyString
  | S k' => hex_digits k' (N.shiftr r 4) +:+ String (lowerhex (N.land r 15)) EmptyString
  end.

(** [utf8.DecodeRuneInString] on a string whose first byte is not ASCII:
    the rune, its bytes and the rest, or [None] for an invalid encoding. *)
Definition decode_rune (s : string) : option (N * string * string) :=
  let cont (c : ascii) (lo hi : N) := (lo <=? N_of_ascii c)%N && (N_of_ascii c <=? hi)%N in
  let low6 (c : ascii) := (N_of_ascii c - 128)%N in
  match s with
  | String c0 r0 =>
    let b0 := N_of_ascii c0 in
    if (b0 <? 194)%N then None
    else if (b0 <? 224)%N then
      match r0 with
      | String c1 r1 =>
          if cont c1 128%N 191%N then Some (((b0 - 192) * 64 + low6 c1)%N, String c0 (String c1 ""), r1)
          else None
      | _ => None
      end
    else if (b0 <? 240)%N then
      let lo := if (b0 =? 224)%N then 160%N else 128%N in
      let hi := if (b0 =? 237)%N then 159%N else 191%N in
      match r0 with
      | String c1 (String c2 r2) =>
          if cont c1 lo hi && cont c2 128%N 191%N
          then Some ((((b0 - 224) * 64 + low6 c1) * 64 + low6 c2)%N,
                     String c0 (String c1 (String c2 "")), r2)
          else None
      | _ => None
      end
    else if (b0 <? 245)%N then
      let lo := if (b0 =? 240)%N then 144%N else 128%N in
      let hi := if (b0 =? 244)%N then 143%N else 191%N in
      match r0 with
      | String c1 (String c2 (String c3 r3)) =>
          if cont c1 lo hi && cont c2 128%N 191%N && cont c3 128%N 191%N
          then Some (((((b0 - 240) * 64 + low6 c1) * 64 + low6 c2) * 64 + low6 c3)%N,
                     String c0 (String c1 (String c2 (String c3 ""))), r3)
          else None
      | _ => None
      end
    else None
  | EmptyString => None
  end.

(** [strconv.IsPrint] (see above for runes from U+0100 on). *)
Definition IsPrint (r : N) : bool :=
  if (r <=? 255)%N then
    ((32 <=? r)%N && (r <=? 126)%N) || ((161 <=? r)%N && negb (r =? 173)%N)
  else true.

(** [appendEscapedRune] with a double quote, ASCIIonly and graphicOnly
    false; [bytes] is the
    encoding of [r]. *)
Definition appendEscapedRune (r : N) (bytes : string) : string :=
  let bs (c : ascii) := String backslash (String c EmptyString) in
  if (r =? 34)%N || (r =? 92)%N then String backslash bytes
  else if IsPrint r then bytes
  else if (r =? 7)%N then bs "a"%char
  else if (r =? 8)%N then bs "b"%char
  else if (r =? 12)%N then bs "f"%char
  else if (r =? 10)%N then bs "n"%char
  else if (r =? 13)%N then bs "r"%char
  else if (r =? 9)%N then bs "t"%char
  else if (r =? 11)%N then bs "v"%char
  else if (r <? 32)%N then bs "x"%char +:+ hex_digits 2 r
  else if (r <? 65536)%N then bs "u"%char +:+ hex_digits 4 r
  else bs "U"%char +:+ hex_digits 8 r.

Fixpoint quote_body (fuel : nat) (s : string) : string :=
  match fuel with
  | O => EmptyString
  | S f =>
    match s with
    | EmptyString => EmptyString
    | String c r =>
        if (N_of_ascii c <? 128)%N then
          appendEscapedRune (N_of_ascii c) (String c EmptyString) +:+ quote_body f r
        else match decode_rune s with
             | Some (rn, bytes, rest) => appendEscapedRune rn bytes +:+ quote_body f rest
             | None => String backslash (String "x"%char (hex_digits 2 (N_of_ascii c)))
                         +:+ quote_body f r
             end
    end
  end.

(** [strconv.Quote(s)], i.e. [fmt.Sprintf("%q", s)]. *)
Definition Quote (s : string) : string :=
  String dquote (quote_body (String.length s) s +:+ String dquote EmptyString).

(* ================================================================= *)
(** ** Go standard library: regexp [^[a-z0-9]([-a-z0-9]*[a-z0-9])?$] *)

Definition is_lower_alnum (c : ascii) : bool :=
  let n := nat_of_ascii c in
  (Nat.leb 97 n && Nat.leb n 122) || (Nat.leb 48 n && Nat.leb n 57).

Definition is_dash (c : ascii) : bool := Nat.eqb (nat_of_ascii c) 45.

(** The optional group [([-a-z0-9]*[a-z0-9])?] up to the end of text. *)
Fixpoint validNameTail (s : string) : bool :=
  match s with
  | EmptyString => true
  | String c EmptyString => is_lower_alnum c
  | String c r => (is_lower_alnum c || is_dash c) && validNameTail r
  end.

(** [validNameRegex.MatchString]: Go's [$] matches only at the end of
    the text. *)
Definition validNameRegex_MatchString (s : string) : bool :=
  match s with
  | EmptyString => false
  | String c r => is_lower_alnum c && validNameTail r
  end.

(* ================================================================= *)
(** ** Go standard library: encoding/json

    [json.Unmarshal] first checks that the whole input is one JSON value
    (surrounded by optional white space); on a syntax error nothing is
    decoded.  Then the value is decoded into the target type; a type
    mismatch is recorded as an error while decoding goes on.

    The string decoder handles the escapes of the JSON grammar, with
    [\uXXXX] escapes (and surrogate pairs) encoded back to UTF-8 and
    unpaired surrogates replaced by U+FFFD, as Go's [unquote] does.  Bytes
    of invalid UTF-8 inside a string are kept as they are (Go replaces them
    by U+FFFD); Go's nesting-depth limit is not modelled. *)

Inductive json : Type :=
  | JNull
  | JBool (b : bool)
  | JNumber (lit : string)
  | JString (s : string)
  | JArray (items : list json)
  | JObject (members : list (string * json)).

Definition is_json_ws (c : ascii) : bool :=
  match nat_of_ascii c with
  | 9 | 10 | 13 | 32 => true
  | _ => false
  end.

Fixpoint skip_ws (s : string) : string :=
  match s with
  | String c r => if is_json_ws c then skip_ws r else s
  | EmptyString => EmptyString
  end.

Definition is_digit (c : ascii) : bool :=
  let n := nat_of_ascii c in Nat.leb 48 n && Nat.leb n 57.

Definition hex_val (c : ascii) : option N :=
  let n := nat_of_ascii c in
  if Nat.leb 48 n && Nat.leb n 57 then Some (N.of_nat (n - 48))
  else if Nat.leb 97 n && Nat.leb n 102 then Some (N.of_nat (n - 87))
  else if Nat.leb 65 n && Nat.leb n 70 then Some (N.of_nat (n - 55))
  else None.

(** [getu4]: four hex digits. *)
Definition getu4 (s : string) : option (N * string) :=
  match s with
  | String a (String b (String c (String d r))) =>
      match hex_val a, hex_val b, hex_val c, hex_val d with
      | Some x, Some y, Some z, Some w => Some (((x * 16 + y) * 16 + z) * 16 + w, r)%N
      | _, _, _, _ => None
      end
  | _ => None
  end.

Definition byte (n : N) : ascii := ascii_of_N n.

(** [utf8.EncodeRune] *)
Definition encode_rune (r : N) : string :=
  if (r <? 128)%N then String (byte r) EmptyString
  else if (r <? 2048)%N then
    String (byte (192 + N.shiftr r 6)) (String (byte (128 + N.land r 63)) EmptyString)
  else if (r <? 65536)%N then
    String (byte (224 + N.shiftr r 12))
      (String (byte (128 + N.land (N.shiftr r 6) 63))
        (String (byte (128 + N.land r 63)) EmptyString))
  else
    String (byte (240 + N.shiftr r 18))
      (String (byte (128 + N.land (N.shiftr r 12) 63))
        (String (byte (128 + N.land (N.shiftr r 6) 63))
          (String (byte (128 + N.land r 63)) EmptyString))).

Definition replacement_char : N := 65533.

(** A [\u] escape starting at [s] (just after the [u]): the decoded rune
    and the rest of the input, pairing surrogates as [utf16.DecodeRune]. *)
Definition decode_u_escape (s : string) : option (string * string) :=
  match getu4 s with
  | None => None
  | Some (rr, r) =>
      if (55296 <=? rr)%N && (rr <? 57344)%N then
        match r with
        | String c1 (String c2 r') =>
            if Ascii.eqb c1 backslash && Ascii.eqb c2 "u"%char then
              match getu4 r' with
              | Some (rr1, r'') =>
                  if (rr <? 56320)%N && (56320 <=? rr1)%N && (rr1 <? 57344)%N
                  then Some (encode_rune (65536 + (rr - 55296) * 1024 + (rr1 - 56320)), r'')
                  else Some (encode_rune replacement_char, r)
              | None => Some (encode_rune replacement_char, r)
              end
            else Some (encode_rune replacement_char, r)
        | _ => Some (encode_rune replacement_char, r)
        end
      else Some (encode_rune rr, r)
  end.

Definition simple_escape (c : ascii) : option ascii :=
  match nat_of_ascii c with
  | 34 => Some dquote
  | 92 => Some backslash
  | 47 => Some "/"%char
  | 98 => Some (ascii_of_nat 8)
  | 102 => Some (ascii_of_nat 12)
  | 110 => Some (ascii_of_nat 10)
  | 114 => Some (ascii_of_nat 13)
  | 116 => Some (ascii_of_nat 9)
  | _ => None
  end.

(** The body of a string literal, after its opening quote: the decoded
    string and the input after the closing quote.  The fuel bounds the
    number of characters read. *)
Fixpoint parse_string_body (fuel : nat) (s : string) : option (string * string) :=
  match fuel with
  | O => None
  | S f =>
    match s with
    | EmptyString => None
    | String c r =>
        if Ascii.eqb c dquote then Some (EmptyString, r)
        else if Nat.ltb (nat_of_ascii c) 32 then None
        else if Ascii.eqb c backslash then
          match r with
          | String "u"%char r' =>
              match decode_u_escape r' with
              | Some (d, r'') =>
                  match parse_string_body f r'' with
                  | Some (v, rest) => Some (d +:+ v, rest)
                  | None => None
                  end
              | None => None
              end
          | String e r' =>
              match simple_escape e with
              | Some d =>
                  match parse_string_body f r' with
                  | Some (v, rest) => Some (String d v, rest)
                  | None => None
                  end
              | None => None
              end
          | EmptyString => None
          end
        else match parse_string_body f r with
             | Some (v, rest) => Some (String c v, rest)
             | None => None
             end
    end
  end.

Fixpoint take_digits (s : string) : string * string :=
  match s with
  | String c r =>
      if is_digit c then let '(d, rest) := take_digits r in (String c d, rest)
      else (EmptyString, s)
  | EmptyString => (EmptyString, EmptyString)
  end.

(** One or more digits. *)
Definition digits1 (s : string) : option (string * string) :=
  match take_digits s with
  | (EmptyString, _) => None
  | (d, rest) => Some (d, rest)
  end.

(** A number: [-? (0 | [1-9][0-9]* ) (. [0-9]+)? ([eE] [+-]? [0-9]+)?]. *)
Definition parse_number (s : string) : option (string * string) :=
  let '(sign, s1) := match s with
                     | String "-"%char r => ("-", r)
                     | _ => (EmptyString, s)
                     end in
  let int_part :=
    match s1 with
    | String "0"%char r => Some ("0", r)
    | String c _ => if is_digit c then digits1 s1 else None
    | EmptyString => None
    end in
  match int_part with
  | None => None
  | Some (ip, s2) =>
    let frac :=
      match s2 with
      | String "."%char r =>
          match digits1 r with
          | Some (d, r') => Some (String "."%char d, r')
          | None => None
          end
      | _ => Some (EmptyString, s2)
      end in
    match frac with
    | None => None
    | Some (fp, s3) =>
      let exp_start :=
        match s3 with
        | String "e"%char r => Some ("e", r)
        | String "E"%char r => Some ("E", r)
        | _ => None
        end in
      match exp_start with
      | None => Some (sign +:+ ip +:+ fp, s3)
      | Some (e, r) =>
          let '(esign, r1) := match r with
                              | String "+"%char r' => ("+", r')
                              | String "-"%char r' => ("-", r')
                              | _ => (EmptyString, r)
                              end in
          match digits1 r1 with
          | Some (d, r2) => Some (sign +:+ ip +:+ fp +:+ e +:+ esign +:+ d, r2)
          | None => None
          end
      end
    end
  end.

(** JSON values.  The fuel bounds the length of every chain of nested
    calls; each call either consumes a character or is followed by one
    that does, so [2 * length + 2] is enough for any input (see
    [json_parse]). *)
Fixpoint parse_value (fuel : nat) (s : string) {struct fuel} : option (json * string) :=
  match fuel with
  | O => None
  | S f =>
    match skip_ws s with
    | EmptyString => None
    | String c r =>
      if Ascii.eqb c dquote then
        match parse_string_body (String.length r) r with
        | Some (v, r') => Some (JString v, r')
        | None => None
        end
      else if Ascii.eqb c "["%char then
        match skip_ws r with
        | String "]"%char r' => Some (JArray [], r')
        | _ => match parse_items f r with
               | Some (l, r') => Some (JArray l, r')
               | None => None
               end
        end
      else if Ascii.eqb c "{"%char then
        match skip_ws r with
        | String "}"%char r' => Some (JObject [], r')
        | _ => match parse_members f r with
               | Some (l, r') => Some (JObject l, r')
               | None => None
               end
        end
      else match String c r with
        | String "t"%char (String "r"%char (String "u"%char (String "e"%char r'))) =>
            Some (JBool true, r')
        | String "f"%char (String "a"%char (String "l"%char (String "s"%char
            (String "e"%char r')))) => Some (JBool false, r')
        | String "n"%char (String "u"%char (String "l"%char (String "l"%char r'))) =>
            Some (JNull, r')
        | s' => match parse_number s' with
                | Some (lit, r') => Some (JNumber lit, r')
                | None => None
                end
        end
    end
  end
(** Array items after the opening bracket, up to the closing one. *)
with parse_items (fuel : nat) (s : string) {struct fuel} : option (list json * string) :=
  match fuel with
  | O => None
  | S f =>
    match parse_value f s with
    | None => None
    | Some (v, r) =>
      match skip_ws r with
      | String ","%char r' =>
          match parse_items f r' with
          | Some (l, r'') => Some (v :: l, r'')
          | None => None
          end
      | String "]"%char r' => Some ([v], r')
      | _ => None
      end
    end
  end
(** Object members after the opening brace, up to the closing one. *)
with parse_members (fuel : nat) (s : string) {struct fuel}
    : option (list (string * json) * string) :=
  match fuel with
  | O => None
  | S f =>
    match skip_ws s with
    | String c r =>
      if Ascii.eqb c dquote then
        match parse_string_body (String.length r) r with
        | None => None
        | Some (k, r1) =>
          match skip_ws r1 with
          | String ":"%char r2 =>
            match parse_value f r2 with
            | None => None
            | Some (v, r3) =>
              match skip_ws r3 with
              | String ","%char r4 =>
                  match parse_members f r4 with
                  | Some (l, r5) => Some ((k, v) :: l, r5)
                  | None => None
                  end
              | String "}"%char r4 => Some ([(k, v)], r4)
              | _ => None
              end
            end
          | _ => None
          end
        end
      else None
    | EmptyString => None
    end
  end.

(** [checkValid] followed by the parse: one value and nothing but white
    space after it. *)
Definition json_parse (s : string) : option json :=
  match parse_value (2 * String.length s + 2) s with
  | Some (v, r) => match skip_ws r with
                   | EmptyString => Some v
                   | _ => None
                   end
  | None => None
  end.

(** Field names are matched as Go matches them: an exact match or, failing
    that, an ASCII case-insensitive one (the fields decoded here have
    lower-case names, so both come to comparing lower-cased keys; Go's
    extra folding of U+017F and U+212A is not modelled). *)
Definition lower (c : ascii) : ascii :=
  let n := nat_of_ascii c in
  if Nat.leb 65 n && Nat.leb n 90 then ascii_of_nat (n + 32) else c.

Fixpoint lower_string (s : string) : string :=
  match s with
  | EmptyString => EmptyString
  | String c r => String (lower c) (lower_string r)
  end.

Definition key_is (field key : string) : bool := String.eqb (lower_string key) field.

(* ================================================================= *)
(** ** multus types: NetworkSelectionElement and NetworkStatus *)

(** [types.NetworkSelectionElement] of multus-cni v3.2:
      Name string `json:"name"`, Namespace string `json:"namespace,omitempty"`,
      IPRequest string `json:"ips,omitempty"`, MacRequest string `json:"mac,omitempty"`,
      InterfaceRequest string `json:"interface,omitempty"`.
    The record keeps the fields this controller reads; [IPRequest] and
    [MacRequest] are decoded for their type errors only. *)
Record NetworkSelectionElement := {
  nse_Name : string;               (* json:"name" *)
  nse_Namespace : string;          (* json:"namespace,omitempty" *)
  nse_InterfaceRequest : string    (* json:"interface,omitempty" *)
}.

Definition empty_nse : NetworkSelectionElement :=
  {| nse_Name := ""; nse_Namespace := ""; nse_InterfaceRequest := "" |}.

(** Decoding a JSON value into a Go [string] field: a string sets it,
    [null] leaves it as it is, anything else is a type error (the field is
    left as it is). *)
Definition decode_string_field (v : json) (old : string) : string * bool :=
  match v with
  | JString s => (s, false)
  | JNull => (old, false)
  | _ => (old, true)
  end.

(** Decoding the members of a JSON object into a [NetworkSelectionElement],
    member by member (a later duplicate key overwrites an earlier one).
    The boolean is [true] when a type error was recorded. *)
Fixpoint decode_nse_members (ms : list (string * json)) (e : NetworkSelectionElement)
    : NetworkSelectionElement * bool :=
  match ms with
  | [] => (e, false)
  | (k, v) :: rest =>
    let '(e', err) :=
      if key_is "name" k then
        let '(x, err) := decode_string_field v (nse_Name e) in
        ({| nse_Name := x; nse_Namespace := nse_Namespace e;
            nse_InterfaceRequest := nse_InterfaceRequest e |}, err)
      else if key_is "namespace" k then
        let '(x, err) := decode_string_field v (nse_Namespace e) in
        ({| nse_Name := nse_Name e; nse_Namespace := x;
            nse_InterfaceRequest := nse_InterfaceRequest e |}, err)
      else if key_is "ips" k then (e, snd (decode_string_field v ""))
      else if key_is "mac" k then (e, snd (decode_string_field v ""))
      else if key_is "interface" k then
        let '(x, err) := decode_string_field v (nse_InterfaceRequest e) in
        ({| nse_Name := nse_Name e; nse_Namespace := nse_Namespace e;
            nse_InterfaceRequest := x |}, err)
      else (e, false) in
    let '(e'', err') := decode_nse_members rest e' in
    (e'', err || err')
  end.

(** One element of a [[]*NetworkSelectionElement]: [null] is a nil
    pointer ([None]); an object is a freshly allocated element; any other
    value allocates an empty element and records a type error. *)
Definition decode_nse_ptr (v : json) : option NetworkSelectionElement * bool :=
  match v with
  | JNull => (None, false)
  | JObject ms => let '(e, err) := decode_nse_members ms empty_nse in (Some e, err)
  | _ => (Some empty_nse, true)
  end.

(** [json.Unmarshal([]byte(s), &networkSelections)] with [networkSelections]
    a nil [[]*NetworkSelectionElement]: the (possibly partial) slice and
    whether an error was returned. *)
Definition json_Unmarshal_selections (s : string)
    : list (option NetworkSelectionElement) * bool :=
  match json_parse s with
  | None => ([], true)
  | Some JNull => ([], false)
  | Some (JArray items) =>
      let ds := map decode_nse_ptr items in
      (map fst ds, existsb snd ds)
  | Some _ => ([], true)
  end.

(** [types.NetworkStatus] of multus-cni v3.2:
      Name string `json:"name"`, Interface string `json:"interface,omitempty"`,
      IPs []string `json:"ips,omitempty"`, Mac string `json:"mac,omitempty"`,
      Default bool `json:"default,omitempty"`, DNS types.DNS `json:"dns,omitempty"`.
    The record keeps the fields this controller reads; [DNS] is decoded
    for its type errors only. *)
Record NetworkStatus := {
  ns_Name : string;
  ns_Interface : string;
  ns_IPs : list string;
  ns_Mac : string;
  ns_Default : bool
}.

Definition empty_status : NetworkStatus :=
  {| ns_Name := ""; ns_Interface := ""; ns_IPs := []; ns_Mac := ""; ns_Default := false |}.

(** A Go [[]string] while it is decoded: its backing array (whose length
    is the capacity) and its length.  Decoding a JSON array into a slice
    reuses the backing array, so an element decoded from [null] keeps what
    the array held at that index. *)
Record string_slice := { sl_backing : list string; sl_len : nat }.

Definition nil_slice : string_slice := {| sl_backing := []; sl_len := 0 |}.

Definition slice_value (sl : string_slice) : list string := firstn (sl_len sl) (sl_backing sl).

(** The loop of [decodeState.array] on a slice, from index [i]: grow the
    backing array when [i] reaches the capacity ([reflect.MakeSlice] with
    capacity [max(cap + cap/2, 4)] and [reflect.Copy] of the first [len]
    elements), extend the length, decode the element in place; at the end
    truncate the length to the number of items, and replace an empty
    result by a fresh empty slice. *)
Fixpoint decode_string_slice_items (i : nat) (items : list json) (sl : string_slice)
    : string_slice * bool :=
  match items with
  | [] =>
      if Nat.eqb i 0 then (nil_slice, false)
      else if Nat.ltb i (sl_len sl) then ({| sl_backing := sl_backing sl; sl_len := i |}, false)
      else (sl, false)
  | v :: rest =>
      let cap := length (sl_backing sl) in
      let b := if Nat.leb cap i then
                 firstn (sl_len sl) (sl_backing sl) ++
                   repeat "" (Nat.max (cap + cap / 2) 4 - sl_len sl)
               else sl_backing sl in
      let len := if Nat.leb (sl_len sl) i then S i else sl_len sl in
      let '(x, err) := decode_string_field v (nth i b "") in
      let '(sl', err') := decode_string_slice_items (S i) rest
                            {| sl_backing := <[i := x]> b; sl_len := len |} in
      (sl', err || err')
  end.

(** Decoding a JSON value into a [[]string]: [null] sets it to nil, an
    array is decoded into it, anything else is a type error (the slice is
    left as it is). *)
Definition decode_string_slice (v : json) (sl : string_slice) : string_slice * bool :=
  match v with
  | JNull => (nil_slice, false)
  | JArray items => decode_string_slice_items 0 items sl
  | _ => (sl, true)
  end.

(** [types.DNS] of the CNI library:
      Nameservers []string `json:"nameservers,omitempty"`, Domain string `json:"domain,omitempty"`,
      Search []string `json:"search,omitempty"`, Options []string `json:"options,omitempty"`;
    whether decoding its members records a type error. *)
Fixpoint decode_dns_members (ms : list (string * json)) : bool :=
  match ms with
  | [] => false
  | (k, v) :: rest =>
      let err :=
        if key_is "nameservers" k then snd (decode_string_slice v nil_slice)
        else if key_is "domain" k then snd (decode_string_field v "")
        else if key_is "search" k then snd (decode_string_slice v nil_slice)
        else if key_is "options" k then snd (decode_string_slice v nil_slice)
        else false in
      err || decode_dns_members rest
  end.

(** A JSON value into the [DNS] struct: [null] leaves it as it is, an
    object is decoded member by member, anything else is a type error. *)
Definition decode_dns (v : json) : bool :=
  match v with
  | JNull => false
  | JObject ms => decode_dns_members ms
  | _ => true
  end.

(** A JSON value into a Go [bool] field. *)
Definition decode_bool_field (v : json) (old : bool) : bool * bool :=
  match v with
  | JBool b => (b, false)
  | JNull => (old, false)
  | _ => (old, true)
  end.

(** Decoding the members of a JSON object into a [NetworkStatus], member
    by member, with the [IPs] slice as it is being decoded.  The boolean is
    [true] when a type error was recorded. *)
Fixpoint decode_status_members (ms : list (string * json)) (st : NetworkStatus)
    (ips : string_slice) : NetworkStatus * string_slice * bool :=
  match ms with
  | [] => (st, ips, false)
  | (k, v) :: rest =>
    let '(st', ips', err) :=
      if key_is "name" k then
        let '(x, err) := decode_string_field v (ns_Name st) in
        ({| ns_Name := x; ns_Interface := ns_Interface st; ns_IPs := ns_IPs st;
            ns_Mac := ns_Mac st; ns_Default := ns_Default st |}, ips, err)
      else if key_is "interface" k then
        let '(x, err) := decode_string_field v (ns_Interface st) in
        ({| ns_Name := ns_Name st; ns_Interface := x; ns_IPs := ns_IPs st;
            ns_Mac := ns_Mac st; ns_Default := ns_Default st |}, ips, err)
      else if key_is "ips" k then
        let '(ips', err) := decode_string_slice v ips in (st, ips', err)
      else if key_is "mac" k then
        let '(x, err) := decode_string_field v (ns_Mac st) in
        ({| ns_Name := ns_Name st; ns_Interface := ns_Interface st; ns_IPs := ns_IPs st;
            ns_Mac := x; ns_Default := ns_Default st |}, ips, err)
      else if key_is "default" k then
        let '(x, err) := decode_bool_field v (ns_Default st) in
        ({| ns_Name := ns_Name st; ns_Interface := ns_Interface st; ns_IPs := ns_IPs st;
            ns_Mac := ns_Mac st; ns_Default := x |}, ips, err)
      else if key_is "dns" k then (st, ips, decode_dns v)
      else (st, ips, false) in
    let '(st'', ips'', err') := decode_status_members rest st' ips' in
    (st'', ips'', err || err')
  end.

(** One element of a fresh [[]NetworkStatus]: [null] leaves the zero
    value; the result is only used when there is no error, so [None]
    stands for any error. *)
Definition decode_status (v : json) : option NetworkStatus :=
  match v with
  | JNull => Some empty_status
  | JObject ms =>
      let '(st, ips, err) := decode_status_members ms empty_status nil_slice in
      if err then None
      else Some {| ns_Name := ns_Name st; ns_Interface := ns_Interface st;
                   ns_IPs := slice_value ips; ns_Mac := ns_Mac st; ns_Default := ns_Default st |}
  | _ => None
  end.

(** [json.Unmarshal([]byte(s), &networksStatus)] into a [[]types.NetworkStatus];
    [None] when it returns an error. *)
Definition json_Unmarshal_statuses (s : string) : option (list NetworkStatus) :=
  match json_parse s with
  | None => None
  | Some JNull => Some []
  | Some (JArray items) => mapM decode_status items
  | Some _ => None
  end.

(* ================================================================= *)
(** ** pkg/controller/utils.go: the network selection parser *)

(** Outcomes of a Go call that returns an error: a value, an error, or a
    run-time panic (a nil-pointer dereference). *)
Inductive result (A : Type) : Type :=
  | Ok (a : A)
  | Err (e : string)
  | Panic.
Arguments Ok {A} a.
Arguments Err {A} e.
Arguments Panic {A}.

Definition squote (s : string) : string := "'" +:+ s +:+ "'".

(** The first unit that is non-empty and does not match the regexp. *)
Fixpoint first_invalid_unit (units : list string) : option string :=
  match units with
  | [] => None
  | u :: rest =>
      if negb (validNameRegex_MatchString u) && negb (String.eqb u "")
      then Some u else first_invalid_unit rest
  end.

Definition check_units (namespace name netInterface : string)
    : result NetworkSelectionElement :=
  match first_invalid_unit [namespace; name; netInterface] with
  | Some u =>
      Err ("at least one of the network selection units is invalid: error found at "
           +:+ squote u)
  | None =>
      Ok {| nse_Namespace := namespace; nse_Name := name;
            nse_InterfaceRequest := netInterface |}
  end.

(** [parsePodNetworkSelectionElement(selection, defaultNamespace)] *)
Definition parsePodNetworkSelectionElement (selection defaultNamespace : string)
    : result NetworkSelectionElement :=
  let nsname :=
    match Split selection "/" with
    | [u] => Some (defaultNamespace, u)
    | [u0; u1] => Some (u0, u1)
    | _ => None
    end in
  match nsname with
  | None => Err ("invalid network selection element - more than one '/' rune in: "
                 +:+ squote selection)
  | Some (namespace, name) =>
    match Split name "@" with
    | [n] => check_units namespace n ""
    | [n; i] => check_units namespace n i
    | _ => Err ("invalid network selection element - more than one '@' rune in: "
                +:+ squote selection)
    end
  end.

(** The loop over [strings.Split(podNetworks, ",")], appending to the
    slice left by the JSON attempt. *)
Fixpoint parse_comma_units (units : list string) (defaultNamespace : string)
    (networkSelections : list (option NetworkSelectionElement))
    : result (list (option NetworkSelectionElement)) :=
  match units with
  | [] => Ok networkSelections
  | u :: rest =>
    match parsePodNetworkSelectionElement (TrimSpace u) defaultNamespace with
    | Ok e => parse_comma_units rest defaultNamespace (networkSelections ++ [Some e])
    | Err e => Err ("error parsing network selection element: " +:+ e)
    | Panic => Panic
    end
  end.

(** The body of the loop "fill missing namespaces with default value". *)
Definition fill_namespace (defaultNamespace : string) (e : NetworkSelectionElement)
    : NetworkSelectionElement :=
  if String.eqb (nse_Namespace e) "" then
    {| nse_Name := nse_Name e; nse_Namespace := defaultNamespace;
       nse_InterfaceRequest := nse_InterfaceRequest e |}
  else e.

(** The loop itself; a nil element (a JSON [null]) is dereferenced. *)
Fixpoint fill_missing_namespaces (defaultNamespace : string)
    (l : list (option NetworkSelectionElement)) : result (list NetworkSelectionElement) :=
  match l with
  | [] => Ok []
  | None :: _ => Panic
  | Some e :: rest =>
      match fill_missing_namespaces defaultNamespace rest with
      | Ok r => Ok (fill_namespace defaultNamespace e :: r)
      | Err m => Err m
      | Panic => Panic
      end
  end.

(** [parsePodNetworkSelections(podNetworks, defaultNamespace)] (its log
    lines are not modelled). *)
Definition parsePodNetworkSelections (podNetworks defaultNamespace : string)
    : result (list NetworkSelectionElement) :=
  if Nat.eqb (String.length podNetworks) 0 then
    Err "empty string passed as network selection elements list"
  else
    let '(networkSelections, err) := json_Unmarshal_selections podNetworks in
    let parsed :=
      if err then parse_comma_units (Split podNetworks ",") defaultNamespace networkSelections
      else Ok networkSelections in
    match parsed with
    | Ok sels => fill_missing_namespaces defaultNamespace sels
    | Err e => Err e
    | Panic => Panic
    end.

(** [isInNetworkSelectionElementsArray(name, networks)] *)
Fixpoint isInNetworkSelectionElementsArray (name : string)
    (networks : list NetworkSelectionElement) : bool :=
  match networks with
  | [] => false
  | n :: rest => String.eqb name (nse_Name n) || isInNetworkSelectionElementsArray name rest
  end.

(** Builds a string from a template in which ['] stands for a double quote
    (used to write JSON inputs). *)
Definition qj (s : string) : string :=
  string_of_list_ascii
    (map (fun c => if Ascii.eqb c "'"%char then dquote else c) (list_ascii_of_string s)).

(* ================================================================= *)
(** ** Kubernetes objects (the fields the controller uses) *)

Record ObjectMeta := {
  om_Name : string;
  om_Namespace : string;
  om_ResourceVersion : string;
  om_UID : string;
  om_Labels : gmap string string;
  om_Annotations : gmap string string
}.

Inductive IntOrString : Type :=
  | IntVal (i : Z)
  | StrVal (s : string).

Record ContainerPort := { cp_Name : string; cp_ContainerPort : Z; cp_Protocol : string }.
Record Container := { c_Ports : list ContainerPort }.

Record Pod := {
  pod_Meta : ObjectMeta;
  pod_NodeName : string;            (* Spec.NodeName *)
  pod_Containers : list Container   (* Spec.Containers *)
}.

Record ServicePort := {
  sp_Name : string;
  sp_Protocol : string;
  sp_Port : Z;
  sp_TargetPort : IntOrString
}.

Record Service := {
  svc_Meta : ObjectMeta;
  svc_Selector : gmap string string;  (* Spec.Selector *)
  svc_Ports : list ServicePort        (* Spec.Ports *)
}.

Record ObjectReference := {
  or_Kind : string;
  or_Name : string;
  or_Namespace : string;
  or_ResourceVersion : string;
  or_UID : string
}.

Record EndpointAddress := {
  ea_IP : string;
  ea_NodeName : option string;
  ea_TargetRef : option ObjectReference
}.

Record EndpointPort := { ep_Name : string; ep_Port : Z; ep_Protocol : string }.

Record EndpointSubset := {
  es_Addresses : list EndpointAddress;
  es_NotReadyAddresses : list EndpointAddress;
  es_Ports : list EndpointPort
}.

Record OwnerReference := {
  own_APIVersion : string;
  own_Kind : string;
  own_Name : string;
  own_UID : string;
  own_Controller : bool;
  own_BlockOwnerDeletion : bool
}.

Record Endpoints := {
  eps_Meta : ObjectMeta;
  eps_OwnerReferences : list OwnerReference;
  eps_Subsets : list EndpointSubset
}.


Definition selectionsKey : string := "k8s.v1.cni.cncf.io/networks".
Definition statusesKey : string := "k8s.v1.cni.cncf.io/networks-status".

(** A Go map lookup [m[k]]: the zero value when the key is missing. *)
Definition map_get (m : gmap string string) (k : string) : string :=
  match m !! k with Some v => v | None => "" end.

(** [getNetworkAnnotations(obj)] *)
Definition getNetworkAnnotations (meta : ObjectMeta) : string :=
  map_get (om_Annotations meta) selectionsKey.

(* ================================================================= *)
(** ** Library helpers used by [sync] *)

(** [cache.SplitMetaNamespaceKey(key)] *)
Definition SplitMetaNamespaceKey (key : string) : result (string * string) :=
  match Split key "/" with
  | [n] => Ok ("", n)
  | [ns; n] => Ok (ns, n)
  | _ => Err ("unexpected key format: " +:+ Quote key)
  end.

(** [labels.Set(sel).AsSelector().Matches(labels)]: every pair of the
    selector is among the labels; the empty selector matches everything. *)
Definition selector_matches (sel labels : gmap string string) : bool :=
  bool_decide (map_Forall (fun k v => labels !! k = Some v) sel).

(** [podutil.FindPort(pod, svcPort)] *)
Definition FindPort (pod : Pod) (svcPort : ServicePort) : result Z :=
  match sp_TargetPort svcPort with
  | StrVal name =>
      match find (fun p => String.eqb (cp_Name p) name
                           && String.eqb (cp_Protocol p) (sp_Protocol svcPort))
                 (flat_map c_Ports (pod_Containers pod)) with
      | Some p => Ok (cp_ContainerPort p)
      | None => Err ("no suitable port for manifest: " +:+ om_UID (pod_Meta pod))
      end
  | IntVal i => Ok i
  end.

(** Go's [int32(x)] conversion, two's complement wrap-around. *)
Definition int32_of_int (x : Z) : Z :=
  let m := (x mod 2 ^ 32)%Z in
  if (m <? 2 ^ 31)%Z then m else (m - 2 ^ 32)%Z.

(** [metav1.NewControllerRef(svc, {Group: "", Version: "v1", Kind: "Service"})] *)
Definition NewControllerRef (svc : Service) : OwnerReference :=
  {| own_APIVersion := "v1"; own_Kind := "Service";
     own_Name := om_Name (svc_Meta svc); own_UID := om_UID (svc_Meta svc);
     own_Controller := true; own_BlockOwnerDeletion := true |}.

(* ================================================================= *)
(** ** k8s.io/kubernetes/pkg/api/v1/endpoints.RepackSubsets

    The upstream function, in the version with ready/not-ready address
    sets:
      1. every address of every subset is mapped to every port of the
         subset (a subset without ports uses the sentinel port
         [{Port: -1}]); [allAddrs] keeps the first address seen for each
         address key (IP, target UID), and an address is ready for a port
         only if it was ready in every subset listing that port (not
         ready always trumps ready);
      2. ports are grouped by their address set (Go hashes the set); only
         ports with [Port > 0] are kept in a group, a group whose ports are
         all sentinels or non-positive is still created, with no ports;
      3. one subset per group, then [SortSubsets].
    Go orders addresses, ports and subsets by content hashes; here the
    canonical orders of [gmap]/[gset] enumeration are used instead (both
    are functions of the contents only). *)

Definition addressKey : Type := (string * string)%type.

Definition addrKey (a : EndpointAddress) : addressKey :=
  (ea_IP a, match ea_TargetRef a with Some r => or_UID r | None => "" end).

#[global] Instance EndpointPort_eq_dec : EqDecision EndpointPort.
Proof. solve_decision. Defined.

#[global] Instance EndpointPort_countable : Countable EndpointPort.
Proof.
  refine (inj_countable' (fun p => (ep_Name p, ep_Port p, ep_Protocol p))
            (fun '(n, x, pr) => {| ep_Name := n; ep_Port := x; ep_Protocol := pr |}) _).
  intros []; reflexivity.
Defined.

Definition sentinelPort : EndpointPort := {| ep_Name := ""; ep_Port := -1; ep_Protocol := "" |}.

(** An address set: the key of each address and whether it is ready. *)
Abbreviation addressSet := (gmap addressKey bool).

Record repackState := {
  allAddrs : gmap addressKey EndpointAddress;
  portToAddrReadyMap : gmap EndpointPort addressSet
}.

(** [mapAddressByPort] *)
Definition mapAddressByPort (addr : EndpointAddress) (port : EndpointPort) (ready : bool)
    (st : repackState) : repackState :=
  let key := addrKey addr in
  let all' := match allAddrs st !! key with
              | Some _ => allAddrs st
              | None => <[key := addr]> (allAddrs st)
              end in
  let set : addressSet := default ∅ (portToAddrReadyMap st !! port) in
  let set' := match set !! key with
              | Some false => set       (* found and not ready: not ready always trumps ready *)
              | _ => <[key := ready]> set
              end in
  {| allAddrs := all'; portToAddrReadyMap := <[port := set']> (portToAddrReadyMap st) |}.

(** [mapAddressesByPort] *)
Definition mapAddressesByPort (subset : EndpointSubset) (port : EndpointPort)
    (st : repackState) : repackState :=
  let st1 := fold_left (fun s a => mapAddressByPort a port true s) (es_Addresses subset) st in
  fold_left (fun s a => mapAddressByPort a port false s) (es_NotReadyAddresses subset) st1.

Definition map_subset (st : repackState) (subset : EndpointSubset) : repackState :=
  match es_Ports subset with
  | [] => mapAddressesByPort subset sentinelPort st
  | ports => fold_left (fun s p => mapAddressesByPort subset p s) ports st
  end.

(** The second loop: ports grouped by address set. *)
Definition group_port (port : EndpointPort) (addrs : addressSet)
    (groups : gmap addressSet (gset EndpointPort)) : gmap addressSet (gset EndpointPort) :=
  if bool_decide (0 < ep_Port port)%Z then
    <[addrs := {[port]} ∪ default (∅ : gset EndpointPort) (groups !! addrs)]> groups
  else match groups !! addrs with
       | Some _ => groups
       | None => <[addrs := ∅]> groups
       end.

Definition build_subset (all : gmap addressKey EndpointAddress)
    (addrs : addressSet) (ports : gset EndpointPort) : EndpointSubset :=
  {| es_Addresses := omap (fun kr : addressKey * bool => if kr.2 then all !! kr.1 else None)
                         (map_to_list addrs);
     es_NotReadyAddresses :=
       omap (fun kr : addressKey * bool => if kr.2 then None else all !! kr.1)
            (map_to_list addrs);
     es_Ports := elements ports |}.

Definition RepackSubsets (subsets : list EndpointSubset) : list EndpointSubset :=
  let st := fold_left map_subset subsets {| allAddrs := ∅; portToAddrReadyMap := ∅ |} in
  let groups := map_fold group_port ∅ (portToAddrReadyMap st) in
  map (fun '(addrs, ports) => build_subset (allAddrs st) addrs ports) (map_to_list groups).

(* ================================================================= *)
(** ** The controller's world: informer caches, API calls, events, logs *)

(** The listers' stores, keyed by [namespace/name] as client-go's
    [MetaNamespaceKeyFunc] does; [c_pods] is the pod list in the order
    the lister returns it. *)
Record Cache := {
  c_services : gmap string Service;
  c_pods : list Pod;
  c_endpoints : gmap string Endpoints
}.

Inductive EventType : Type := EventTypeNormal | EventTypeWarning.

Record ObjRef := { ref_Kind : string; ref_Namespace : string; ref_Name : string }.

(** [recorder.Event(object, eventtype, reason, message)] *)
Record Event := {
  ev_Object : ObjRef;
  ev_Type : EventType;
  ev_Reason : string;
  ev_Message : string
}.

(** klog: [V(n).Info*] is [Info n], [Info*] is [Info 0]. *)
Inductive LogLevel : Type := Info (v : nat) | Warning | Error.

Record LogEntry := { log_Level : LogLevel; log_Msg : string }.

Record St := {
  st_cache : Cache;
  st_events : list Event;
  st_updates : list Endpoints;   (* Endpoints written through the API *)
  st_logs : list LogEntry
}.

(** The answers of the API server to the calls [sync] makes. *)
Record Env := {
  env_updateErr : Endpoints -> option string  (* error of Endpoints(ns).Update(ep) *)
}.

(** State and error monad of [sync]. *)
Definition M (A : Type) : Type := St -> result A * St.

#[global] Instance M_ret : MRet M := fun A a s => (Ok a, s).
#[global] Instance M_bind : MBind M := fun A B k m s =>
  match m s with
  | (Ok a, s') => k a s'
  | (Err e, s') => (Err e, s')
  | (Panic, s') => (Panic, s')
  end.

Definition fail {A} (e : string) : M A := fun s => (Err e, s).
Definition lift {A} (r : result A) : M A := fun s => (r, s).
Definition get_st : M St := fun s => (Ok s, s).

Definition klog (lvl : LogLevel) (msg : string) : M unit := fun s =>
  (Ok tt, {| st_cache := st_cache s; st_events := st_events s; st_updates := st_updates s;
             st_logs := st_logs s ++ [{| log_Level := lvl; log_Msg := msg |}] |}).

Definition record_event (ev : Event) : M unit := fun s =>
  (Ok tt, {| st_cache := st_cache s; st_events := st_events s ++ [ev];
             st_updates := st_updates s; st_logs := st_logs s |}).

Definition svc_ref (svc : Service) : ObjRef :=
  {| ref_Kind := "Service"; ref_Namespace := om_Namespace (svc_Meta svc);
     ref_Name := om_Name (svc_Meta svc) |}.

Definition ep_ref (ep : Endpoints) : ObjRef :=
  {| ref_Kind := "Endpoints"; ref_Namespace := om_Namespace (eps_Meta ep);
     ref_Name := om_Name (eps_Meta ep) |}.

Definition store_key (namespace name : string) : string := namespace +:+ "/" +:+ name.

(** The text of [errors.NewNotFound(v1.Resource(resource), name)]:
    [fmt.Sprintf("%s %q not found", resource, name)]. *)
Definition NotFound_msg (resource name : string) : string :=
  resource +:+ " " +:+ Quote name +:+ " not found".

(** [c.serviceLister.Services(namespace).Get(name)] *)
Definition serviceGet (namespace name : string) : M Service := fun s =>
  match c_services (st_cache s) !! store_key namespace name with
  | Some svc => (Ok svc, s)
  | None => (Err (NotFound_msg "service" name), s)
  end.

(** [c.endpointsLister.Endpoints(namespace).Get(name)] *)
Definition endpointsGet (namespace name : string) : M Endpoints := fun s =>
  match c_endpoints (st_cache s) !! store_key namespace name with
  | Some ep => (Ok ep, s)
  | None => (Err (NotFound_msg "endpoints" name), s)
  end.

(** [c.podsLister.List(selector)]: pods of every namespace whose labels
    match; listing from the cache does not fail. *)
Definition podsList (selector : gmap string string) : M (list Pod) := fun s =>
  (Ok (filter (fun p => selector_matches selector (om_Labels (pod_Meta p)) = true)
              (c_pods (st_cache s))), s).

(** [x, err := call; if err != nil { klog...(msg, err); return err }] *)
Definition log_on_error {A} (lvl : LogLevel) (msg : string) (m : M A) : M A := fun s =>
  match m s with
  | (Err e, s') => (klog lvl (msg +:+ e) ;; fail e) s'
  | r => r
  end.

(** [ep] is the object held by the lister's store: setting its fields
    changes the cached object. *)
Definition store_endpoints (namespace name : string) (ep : Endpoints) : M unit := fun s =>
  (Ok tt, {| st_cache := {| c_services := c_services (st_cache s);
                            c_pods := c_pods (st_cache s);
                            c_endpoints := <[store_key namespace name := ep]>
                                             (c_endpoints (st_cache s)) |};
             st_events := st_events s; st_updates := st_updates s; st_logs := st_logs s |}).

(** [_, err = c.k8sClientSet.Core().Endpoints(ep.Namespace).Update(ep)]:
    the error it returns, if any. *)
Definition endpointsUpdate (env : Env) (ep : Endpoints) : M (option string) := fun s =>
  match env_updateErr env ep with
  | Some e => (Ok (Some e), s)
  | None => (Ok None, {| st_cache := st_cache s; st_events := st_events s;
                         st_updates := st_updates s ++ [ep]; st_logs := st_logs s |})
  end.

(* ================================================================= *)
(** ** pkg/controller/controller.go: [sync] *)

(** The address built for one IP of a matching network status. *)
Definition podEndpointAddress (pod : Pod) (ip : string) : EndpointAddress :=
  {| ea_IP := ip;
     ea_NodeName := Some (pod_NodeName pod);
     ea_TargetRef := Some {| or_Kind := "Pod";
                             or_Name := om_Name (pod_Meta pod);
                             or_Namespace := om_Namespace (pod_Meta pod);
                             or_ResourceVersion := om_ResourceVersion (pod_Meta pod);
                             or_UID := om_UID (pod_Meta pod) |} |}.

(** [for _, status := range networksStatus { ... }] *)
Fixpoint status_addresses (pod : Pod) (networks : list NetworkSelectionElement)
    (networksStatus : list NetworkStatus) (addresses : list EndpointAddress)
    : M (list EndpointAddress) :=
  match networksStatus with
  | [] => mret addresses
  | status :: rest =>
    if isInNetworkSelectionElementsArray (ns_Name status) networks then
      klog (Info 3) "processing pod %s/%s: found network %s interface %s with IP addresses %s" ;;
      status_addresses pod networks rest (addresses ++ map (podEndpointAddress pod) (ns_IPs status))
    else status_addresses pod networks rest addresses
  end.

(** [for i := range svc.Spec.Ports { ... }] *)
Fixpoint pod_ports (pod : Pod) (svcPorts : list ServicePort) (ports : list EndpointPort)
    : M (list EndpointPort) :=
  match svcPorts with
  | [] => mret ports
  | sp :: rest =>
    match FindPort pod sp with
    | Ok portNumber =>
        pod_ports pod rest
          (ports ++ [{| ep_Port := int32_of_int portNumber; ep_Protocol := sp_Protocol sp;
                        ep_Name := sp_Name sp |}])
    | _ =>
        klog (Info 4) "Could not find pod port for service %s/%s: %s, skipping..." ;;
        pod_ports pod rest ports
    end
  end.

(** [for _, pod := range pods { ... }] *)
Fixpoint sync_pods (svc : Service) (networks : list NetworkSelectionElement)
    (pods : list Pod) (subsets : list EndpointSubset) : M (list EndpointSubset) :=
  match pods with
  | [] => mret subsets
  | pod :: rest =>
    match json_Unmarshal_statuses (map_get (om_Annotations (pod_Meta pod)) statusesKey) with
    | None =>
        klog Warning "error reading pod networks status: %s" ;;
        sync_pods svc networks rest subsets
    | Some networksStatus =>
        addresses ← status_addresses pod networks networksStatus [] ;
        ports ← pod_ports pod (svc_Ports svc) [] ;
        sync_pods svc networks rest
          (subsets ++ [{| es_Addresses := addresses; es_NotReadyAddresses := [];
                          es_Ports := ports |}])
    end
  end.

Definition multipleSelectionsMsg : string :=
  "multiple network selections in the service spec are not supported".

(** [c.sync(key)] *)
Definition sync (env : Env) (key : string) : M unit :=
  '(namespace, name) ← lift (SplitMetaNamespaceKey key) ;
  svc ← serviceGet namespace name ;
  let annotations := getNetworkAnnotations (svc_Meta svc) in
  if Nat.eqb (String.length annotations) 0 then fail "no network annotations" else
  klog (Info 3) ("service network annotation found: " +:+ annotations) ;;
  networks ← lift (parsePodNetworkSelections annotations namespace) ;
  if Nat.ltb 1 (length networks) then
    klog Warning multipleSelectionsMsg ;;
    record_event {| ev_Object := svc_ref svc; ev_Type := EventTypeWarning;
                    ev_Reason := multipleSelectionsMsg;
                    ev_Message := "Endpoints update aborted" |} ;;
    fail multipleSelectionsMsg
  else
  pods ← podsList (svc_Selector svc) ;
  ep ← log_on_error (Info 4) "error getting service endpoints: " (endpointsGet namespace name) ;
  subsets ← sync_pods svc networks pods [] ;
  let ep' := {| eps_Meta := eps_Meta ep;
                eps_OwnerReferences := [NewControllerRef svc];
                eps_Subsets := RepackSubsets subsets |} in
  store_endpoints namespace name ep' ;;
  err ← endpointsUpdate env ep' ;
  match err with
  | Some e => klog Error ("error updating endpoint: " +:+ e) ;; fail e
  | None =>
      klog (Info 0) "endpoint updated successfully" ;;
      let msg := "Updated to use network " +:+ annotations in
      record_event {| ev_Object := ep_ref ep'; ev_Type := EventTypeNormal;
                      ev_Reason := msg; ev_Message := "Endpoints update successful" |} ;;
      record_event {| ev_Object := svc_ref svc; ev_Type := EventTypeNormal;
                      ev_Reason := msg; ev_Message := "Endpoints update successful" |} ;;
      mret tt
  end.

(* ================================================================= *)
(** ** The work queue and [processNextWorkItem] *)

(** client-go's [workqueue.Type]: the FIFO of keys, the dirty set (keys
    waiting to be processed) and the processing set.  Rate limiting only
    delays [Add]s and is not modelled. *)
Record Queue := {
  q_queue : list string;
  q_dirty : gset string;
  q_processing : gset string;
  q_shuttingDown : bool
}.

(** [Add(item)] *)
Definition queue_Add (item : string) (q : Queue) : Queue :=
  if q_shuttingDown q || bool_decide (item ∈ q_dirty q) then q
  else if bool_decide (item ∈ q_processing q) then
    {| q_queue := q_queue q; q_dirty := {[item]} ∪ q_dirty q;
       q_processing := q_processing q; q_shuttingDown := q_shuttingDown q |}
  else {| q_queue := q_queue q ++ [item]; q_dirty := {[item]} ∪ q_dirty q;
          q_processing := q_processing q; q_shuttingDown := q_shuttingDown q |}.

(** [Get()]: [None] when it would block (empty queue, not shutting down),
    [Some (None, q)] for [shutdown = true], otherwise the first key. *)
Definition queue_Get (q : Queue) : option (option string * Queue) :=
  match q_queue q with
  | [] => if q_shuttingDown q then Some (None, q) else None
  | item :: rest =>
      Some (Some item, {| q_queue := rest; q_dirty := q_dirty q ∖ {[item]};
                          q_processing := {[item]} ∪ q_processing q;
                          q_shuttingDown := q_shuttingDown q |})
  end.

(** [Done(item)] *)
Definition queue_Done (item : string) (q : Queue) : Queue :=
  {| q_queue := if bool_decide (item ∈ q_dirty q) then q_queue q ++ [item] else q_queue q;
     q_dirty := q_dirty q;
     q_processing := q_processing q ∖ {[item]};
     q_shuttingDown := q_shuttingDown q |}.

(** [err := c.sync(key)]: the returned error as a value. *)
Definition sync_err (env : Env) (key : string) : M (option string) := fun s =>
  match sync env key s with
  | (Ok _, s') => (Ok None, s')
  | (Err e, s') => (Ok (Some e), s')
  | (Panic, s') => (Panic, s')
  end.

(** [c.processNextWorkItem()]: [None] while [Get] blocks, otherwise the
    returned boolean and the queue after the deferred [Done]. *)
Definition processNextWorkItem (env : Env) (q : Queue) : M (option (bool * Queue)) :=
  match queue_Get q with
  | None => mret None
  | Some (None, q') => mret (Some (false, q'))
  | Some (Some key, q') =>
      err ← sync_err env key ;
      (match err with
       | Some e => klog (Info 4) ("sync aborted: " +:+ e)
       | None => mret tt
       end) ;;
      mret (Some (true, queue_Done key q'))
  end.

(* ================================================================= *)
(** ** pkg/controller/controller.go: [handleNetAttachDefDeleteEvent] *)










(* ================================================================= *)
(** ** pkg/controller/controller.go: the event handlers, [worker] and [Start] *)

(** The objects informers hand to the event handlers: the typed objects,
    or the tombstone [cache.DeletedFinalStateUnknown] delivered for a
    deletion the watch missed. *)
Inductive InformerObj : Type :=
  | ObjService (svc : Service)
  | ObjPod (pod : Pod)
  | ObjEndpoints (ep : Endpoints)
  | ObjTombstone (key : string).

(** [obj.(metav1.Object)]: a tombstone is not a [metav1.Object]. *)
Definition obj_meta (obj : InformerObj) : option ObjectMeta :=
  match obj with
  | ObjService svc => Some (svc_Meta svc)
  | ObjPod pod => Some (pod_Meta pod)
  | ObjEndpoints ep => Some (eps_Meta ep)
  | ObjTombstone _ => None
  end.

(** [cache.MetaNamespaceKeyFunc(obj)] *)
Definition MetaNamespaceKeyFunc (obj : InformerObj) : result string :=
  match obj_meta obj with
  | Some m =>
      if Nat.ltb 0 (String.length (om_Namespace m)) then Ok (om_Namespace m +:+ "/" +:+ om_Name m)
      else Ok (om_Name m)
  | None => Err "object has no meta: object does not implement the Object interfaces"
  end.

(** [c.handleServiceEvent(obj)]: the queue after the call;
    [AddRateLimited] only delays the [Add], and [HandleError] only logs. *)
Definition handleServiceEvent (obj : InformerObj) (q : Queue) : Queue :=
  match MetaNamespaceKeyFunc obj with
  | Ok key => queue_Add key q
  | _ => q
  end.

(** [c.handlePodEvent(obj)]; [getPodServices pod] is what
    [c.serviceLister.GetPodServices(pod)] returns: the services and the
    error. *)
Definition handlePodEvent (getPodServices : Pod -> list Service * option string)
    (obj : InformerObj) (q : Queue) : Queue :=
  match obj with
  | ObjPod pod =>
      match om_Annotations (pod_Meta pod) !! selectionsKey with
      | None => q
      | Some _ =>
          let '(services, err) := getPodServices pod in
          match err with
          | Some _ => q
          | None => fold_left (fun q svc => handleServiceEvent (ObjService svc) q) services q
          end
      end
  | _ => q
  end.

(** [c.handleEndpointEvent(obj)]: the type assertion to [*corev1.Endpoints] panics on
    any other object; the service is looked up in the lister's cache. *)
Definition handleEndpointEvent (cache : Cache) (obj : InformerObj) (q : Queue) : result Queue :=
  match obj with
  | ObjEndpoints ep =>
      match c_services cache !! store_key (om_Namespace (eps_Meta ep)) (om_Name (eps_Meta ep)) with
      | Some svc => Ok (handleServiceEvent (ObjService svc) q)
      | None => Ok q
      end
  | _ => Panic
  end.

(** [objectChanged(previous, current)] on the objects' metadata. *)
Definition objectChanged (previous current : ObjectMeta) : bool :=
  negb (String.eqb (om_ResourceVersion previous) (om_ResourceVersion current)).

(** [networkAnnotationsChanged(previous, current)] *)
Definition networkAnnotationsChanged (previous current : ObjectMeta) : bool :=
  negb (String.eqb (getNetworkAnnotations previous) (getNetworkAnnotations current)).

(** The notifications an informer delivers to [ResourceEventHandlerFuncs]. *)
Inductive Notification : Type :=
  | OnAdd (obj : InformerObj)
  | OnUpdate (old updated : InformerObj)
  | OnDelete (obj : InformerObj).

(** The handlers [NewNetworkController] registers on the service, pod and
    endpoints informers; the update filters type-assert both objects to
    [metav1.Object]. *)
Definition serviceHandlers (n : Notification) (q : Queue) : result Queue :=
  match n with
  | OnAdd obj => Ok (handleServiceEvent obj q)
  | OnUpdate old updated =>
      match obj_meta old, obj_meta updated with
      | Some m1, Some m2 =>
          if objectChanged m1 m2 || networkAnnotationsChanged m1 m2
          then Ok (handleServiceEvent updated q) else Ok q
      | _, _ => Panic
      end
  | OnDelete obj => Ok (handleServiceEvent obj q)
  end.

Definition podHandlers (getPodServices : Pod -> list Service * option string)
    (n : Notification) (q : Queue) : result Queue :=
  match n with
  | OnAdd obj => Ok (handlePodEvent getPodServices obj q)
  | OnUpdate old updated =>
      match obj_meta old, obj_meta updated with
      | Some m1, Some m2 =>
          if objectChanged m1 m2 then Ok (handlePodEvent getPodServices updated q) else Ok q
      | _, _ => Panic
      end
  | OnDelete obj => Ok (handlePodEvent getPodServices obj q)
  end.

Definition endpointsHandlers (cache : Cache) (n : Notification) (q : Queue) : result Queue :=
  match n with
  | OnAdd obj => handleEndpointEvent cache obj q
  | OnUpdate old updated =>
      match obj_meta old, obj_meta updated with
      | Some m1, Some m2 =>
          if objectChanged m1 m2 then handleEndpointEvent cache updated q else Ok q
      | _, _ => Panic
      end
  | OnDelete obj => handleEndpointEvent cache obj q
  end.

(** [c.worker()]: [for c.processNextWorkItem() {}], for at most [fuel]
    iterations; [None] while it is still running (a [Get] blocks, or the
    fuel ran out), [Some q] once [processNextWorkItem] returned false. *)
Fixpoint worker (fuel : nat) (env : Env) (q : Queue) : M (option Queue) :=
  match fuel with
  | O => mret None
  | S f =>
      r ← processNextWorkItem env q ;
      match r with
      | None => mret None
      | Some (false, q') => mret (Some q')
      | Some (true, q') => worker f env q'
      end
  end.

(** [ShutDown()] *)
Definition queue_ShutDown (q : Queue) : Queue :=
  {| q_queue := q_queue q; q_dirty := q_dirty q; q_processing := q_processing q;
     q_shuttingDown := true |}.

Definition empty_queue : Queue :=
  {| q_queue := []; q_dirty := ∅; q_processing := ∅; q_shuttingDown := false |}.


(* ================================================================= *)
(** ** Concrete configurations used by the examples *)

Definition ex_meta (ns n : string) (labels ann : gmap string string) : ObjectMeta :=
  {| om_Name := n; om_Namespace := ns; om_ResourceVersion := "1";
     om_UID := ns +:+ "-" +:+ n; om_Labels := labels; om_Annotations := ann |}.

(** Service [default/svc1] selecting [app=web], with network selection [sel]. *)
Definition ex_svc (sel : string) : Service :=
  {| svc_Meta := ex_meta "default" "svc1" ∅ {[selectionsKey := sel]};
     svc_Selector := {["app" := "web"]};
     svc_Ports := [{| sp_Name := "http"; sp_Protocol := "TCP"; sp_Port := 80;
                      sp_TargetPort := IntVal 8080 |}] |}.

(** Pod [default/p1] attached to network [foo] with IP 10.1.1.1. *)
Definition ex_pod1 : Pod :=
  {| pod_Meta := ex_meta "default" "p1" {["app" := "web"]}
                   {[statusesKey := qj "[{'name':'foo','ips':['10.1.1.1']}]"]};
     pod_NodeName := "node1"; pod_Containers := [] |}.

(** Pod [default/p2] without a network-status annotation. *)
Definition ex_pod2 : Pod :=
  {| pod_Meta := ex_meta "default" "p2" {["app" := "web"]} ∅;
     pod_NodeName := "node1"; pod_Containers := [] |}.

Definition ex_ep : Endpoints :=
  {| eps_Meta := ex_meta "default" "svc1" ∅ ∅; eps_OwnerReferences := []; eps_Subsets := [] |}.

Definition ex_cache (sel : string) (pods : list Pod) : Cache :=
  {| c_services := {["default/svc1" := ex_svc sel]}; c_pods := pods;
     c_endpoints := {["default/svc1" := ex_ep]} |}.

Definition ex_st (c : Cache) : St :=
  {| st_cache := c; st_events := []; st_updates := []; st_logs := [] |}.

(** An API server that accepts every update. *)
Definition ex_env : Env := {| env_updateErr := fun _ => None |}.

(** The address sync builds for [ex_pod1]. *)
Definition ex_addr1 : EndpointAddress := podEndpointAddress ex_pod1 "10.1.1.1".

(** An API server that rejects every update. *)
Definition ex_env_reject : Env := {| env_updateErr := fun _ => Some "conflict" |}.




(** Endpoint subsets for [RepackSubsets]. *)
Definition ex_ip_address (ip : string) : EndpointAddress :=
  {| ea_IP := ip; ea_NodeName := None; ea_TargetRef := None |}.

Definition ex_port (n : Z) : EndpointPort :=
  {| ep_Name := ""; ep_Port := n; ep_Protocol := "TCP" |}.

(** A subset without ports next to a subset whose only port is numbered 0. *)
Definition ex_subsets_port0 : list EndpointSubset :=
  [{| es_Addresses := [ex_ip_address "10.0.0.1"]; es_NotReadyAddresses := [];
      es_Ports := [] |};
   {| es_Addresses := [ex_ip_address "10.0.0.2"]; es_NotReadyAddresses := [];
      es_Ports := [ex_port 0] |}].

Definition ex_subsets_pos : list EndpointSubset :=
  [{| es_Addresses := [ex_ip_address "10.0.0.1"];
      es_NotReadyAddresses := [ex_ip_address "10.0.0.3"]; es_Ports := [ex_port 80] |};
   {| es_Addresses := [ex_ip_address "10.0.0.2"]; es_NotReadyAddresses := [];
      es_Ports := [ex_port 80; ex_port 443] |}].

(** ** Vocabulary of the properties *)

(** The state after the multiple-selection abort. *)
Definition aborted_state (s : St) (svc : Service) : St :=
  {| st_cache := st_cache s;
     st_events := st_events s ++
       [{| ev_Object := svc_ref svc; ev_Type := EventTypeWarning;
           ev_Reason := multipleSelectionsMsg; ev_Message := "Endpoints update aborted" |}];
     st_updates := st_updates s;
     st_logs := st_logs s ++
       [{| log_Level := Info 3;
           log_Msg := "service network annotation found: " +:+ getNetworkAnnotations (svc_Meta svc) |};
        {| log_Level := Warning; log_Msg := multipleSelectionsMsg |}] |}.

Definition append_log (s : St) (e : LogEntry) : St :=
  {| st_cache := st_cache s; st_events := st_events s; st_updates := st_updates s;
     st_logs := st_logs s ++ [e] |}.

Definition with_namespace (ns : string) (e : NetworkSelectionElement) : NetworkSelectionElement :=
  {| nse_Name := nse_Name e; nse_Namespace := ns; nse_InterfaceRequest := nse_InterfaceRequest e |}.



(** A computation that leaves the recorded events as they are. *)
Definition events_kept {A} (m : M A) : Prop :=
  forall s r s', m s = (r, s') -> st_events s' = st_events s.

(** Two states that agree on everything [sync] reads or writes except
    the pods and the log. *)
Definition st_rel (s1 s2 : St) : Prop :=
  c_services (st_cache s1) = c_services (st_cache s2) /\
  c_endpoints (st_cache s1) = c_endpoints (st_cache s2) /\
  st_events s1 = st_events s2 /\ st_updates s1 = st_updates s2.

Definition res_rel {A} (x y : result A * St) : Prop :=
  fst x = fst y /\ st_rel (snd x) (snd y).

Definition m_rel {A} (m1 m2 : M A) : Prop :=
  forall s1 s2, st_rel s1 s2 -> res_rel (m1 s1) (m2 s2).



(** Occurrences of a character in a string. *)
Fixpoint count_char (c : ascii) (s : string) : nat :=
  match s with
  | EmptyString => 0
  | String a r => (if Ascii.eqb a c then 1 else 0) + count_char c r
  end.







(** [RepackSubsets] through its occurrences. *)

(** [RepackSubsets] read as a stream of occurrences: each (address, port,
    ready) triple its first loop hands to [mapAddressByPort], in order. *)
Definition occurrence : Type := (EndpointAddress * EndpointPort * bool)%type.

(** The ports the first loop uses for a subset. *)
Definition subset_ports (sub : EndpointSubset) : list EndpointPort :=
  match es_Ports sub with [] => [sentinelPort] | ps => ps end.

Definition subset_occ (sub : EndpointSubset) (p : EndpointPort) : list occurrence :=
  map (fun a => (a, p, true)) (es_Addresses sub) ++
  map (fun a => (a, p, false)) (es_NotReadyAddresses sub).

Definition occ (subsets : list EndpointSubset) : list occurrence :=
  flat_map (fun sub => flat_map (subset_occ sub) (subset_ports sub)) subsets.

Definition occ_step (st : repackState) (x : occurrence) : repackState :=
  mapAddressByPort x.1.1 x.1.2 x.2 st.

(** An occurrence at port [p] of an address with key [k]. *)
Definition occ_match (p : EndpointPort) (k : addressKey) (x : occurrence) : bool :=
  bool_decide (x.1.2 = p) && bool_decide (addrKey x.1.1 = k).

(** What the occurrences say about key [k] at port [p]: absent, or present
    and not ready when one of its occurrences there is not ready. *)
Definition occ_ready (p : EndpointPort) (k : addressKey) (l : list occurrence) : option bool :=
  if existsb (occ_match p k) l
  then Some (negb (existsb (fun x => occ_match p k x && negb x.2) l)) else None.

(** The readiness recorded for key [k] at port [p]. *)
Definition ready_at (m : gmap EndpointPort addressSet) (p : EndpointPort) (k : addressKey)
    : option bool :=
  match m !! p with Some s => s !! k | None => None end.

Definition empty_repack : repackState := {| allAddrs := ∅; portToAddrReadyMap := ∅ |}.

Definition combine_ready (o1 o2 : option bool) : option bool :=
  match o1, o2 with
  | None, o => o
  | Some b, None => Some b
  | Some b, Some c => Some (b && c)
  end.

(** What the second loop builds for the address set [s]: a group exactly
    when some port maps to [s], holding the ports with [Port > 0] that
    do. *)
Definition group_spec_at (P : gmap EndpointPort addressSet)
    (G : gmap addressSet (gset EndpointPort)) (s : addressSet) : Prop :=
  (G !! s = None <-> forall q, P !! q <> Some s) /\
  (forall ports, G !! s = Some ports ->
     forall p, p ∈ ports <-> (0 < ep_Port p)%Z /\ P !! p = Some s).

(** The third loop of [RepackSubsets]. *)
Definition repack_out (A : gmap addressKey EndpointAddress)
    (G : gmap addressSet (gset EndpointPort)) : list EndpointSubset :=
  map (fun '(addrs, ports) => build_subset A addrs ports) (map_to_list G).

(** The first loop run on a list of occurrences, and what it yields. *)
Definition repack_run (l : list occurrence) : repackState := fold_left occ_step l empty_repack.

Definition A_of (l : list occurrence) := allAddrs (repack_run l).

Definition P_of (l : list occurrence) := portToAddrReadyMap (repack_run l).

Definition G_of (l : list occurrence) := map_fold group_port ∅ (P_of l).

(** Every port of the occurrences is positive or the sentinel. *)
Definition ports_ok (l : list occurrence) : Prop :=
  forall x, In x l -> (0 < ep_Port x.1.2)%Z \/ x.1.2 = sentinelPort.

(** The occurrences of the repacked subsets. *)
Definition repacked_occ (l : list occurrence) : list occurrence :=
  occ (repack_out (A_of l) (G_of l)).

(** A computation that only appends log lines. *)
Definition logs_only {A} (m : M A) : Prop :=
  forall s r s', m s = (r, s') ->
    st_cache s' = st_cache s /\ st_events s' = st_events s /\ st_updates s' = st_updates s.

(** The addresses [sync] builds for a pod from its decoded statuses. *)
Definition status_addrs (pod : Pod) (networks : list NetworkSelectionElement)
    (sts : list NetworkStatus) : list EndpointAddress :=
  flat_map (fun st => if isInNetworkSelectionElementsArray (ns_Name st) networks
                      then map (podEndpointAddress pod) (ns_IPs st) else []) sts.

(** The endpoint port [sync] builds for a service port, if [FindPort] resolves it. *)
Definition port_of (pod : Pod) (sp : ServicePort) : option EndpointPort :=
  match FindPort pod sp with
  | Ok portNumber => Some {| ep_Port := int32_of_int portNumber; ep_Protocol := sp_Protocol sp;
                             ep_Name := sp_Name sp |}
  | _ => None
  end.

(** The subset [sync] builds for a pod, if its status annotation decodes. *)
Definition pod_subset (svc : Service) (networks : list NetworkSelectionElement) (pod : Pod)
    : option EndpointSubset :=
  match json_Unmarshal_statuses (map_get (om_Annotations (pod_Meta pod)) statusesKey) with
  | None => None
  | Some sts => Some {| es_Addresses := status_addrs pod networks sts; es_NotReadyAddresses := [];
                        es_Ports := omap (port_of pod) (svc_Ports svc) |}
  end.

Definition selected_pods (svc : Service) (pods : list Pod) : list Pod :=
  filter (fun p => selector_matches (svc_Selector svc) (om_Labels (pod_Meta p)) = true) pods.

(** The Endpoints object [sync] stores and writes. *)
Definition synced_endpoints (svc : Service) (networks : list NetworkSelectionElement)
    (pods : list Pod) (ep : Endpoints) : Endpoints :=
  {| eps_Meta := eps_Meta ep; eps_OwnerReferences := [NewControllerRef svc];
     eps_Subsets := RepackSubsets (omap (pod_subset svc networks) (selected_pods svc pods)) |}.


(** The key [MetaNamespaceKeyFunc] gives an object with metadata [m]. *)
Definition MetaNamespaceKey (m : ObjectMeta) : string :=
  if Nat.ltb 0 (String.length (om_Namespace m)) then om_Namespace m +:+ "/" +:+ om_Name m
  else om_Name m.



(** * Properties *)

(** Evaluating the state monad. *)
Lemma bind_ok {A B} (m : M A) (k : A -> M B) s a s' :
  m s = (Ok a, s') -> (m ≫= k) s = k a s'.
Proof. intros H. unfold mbind, M_bind. by rewrite H. Qed.

Lemma bind_err {A B} (m : M A) (k : A -> M B) s e s' :
  m s = (Err e, s') -> (m ≫= k) s = (Err e, s').
Proof. intros H. unfold mbind, M_bind. by rewrite H. Qed.

Lemma bind_inv {A B} (m : M A) (k : A -> M B) s r s' :
  (m ≫= k) s = (r, s') ->
  (exists a s1, m s = (Ok a, s1) /\ k a s1 = (r, s')) \/
  (exists e, m s = (Err e, s') /\ r = Err e) \/
  (m s = (Panic, s') /\ r = Panic).
Proof.
  unfold mbind, M_bind. destruct (m s) as [[a|e|] s1]; intros H.
  - left. eauto.
  - right; left. inversion H. eauto.
  - right; right. inversion H. eauto.
Qed.


Lemma events_kept_fail {A} e : events_kept (fail (A:=A) e).
Proof. intros s r s' H. by inversion H. Qed.






Lemma parse_nonempty raw d l :
  parsePodNetworkSelections raw d = Ok l -> Nat.eqb (String.length raw) 0 = false.
Proof.
  unfold parsePodNetworkSelections. destruct (Nat.eqb _ 0); [discriminate | done].
Qed.


Lemma m_rel_lift {A} (r : result A) : m_rel (lift r) (lift r).
Proof. intros s1 s2 Hs. by split. Qed.
Lemma m_rel_serviceGet ns n : m_rel (serviceGet ns n) (serviceGet ns n).
Proof. intros s1 s2 Hs. unfold serviceGet. destruct Hs as [H1 Hs]. rewrite H1.
  case_match; split; simpl; try done; by split. Qed.







Lemma bind_klog_eval {B} lvl msg (k : unit -> M B) s :
  (klog lvl msg ≫= k) s = k tt (append_log s {| log_Level := lvl; log_Msg := msg |}).
Proof. reflexivity. Qed.




Lemma Split_length (s : string) (c : ascii) : length (Split s c) = S (count_char c s).
Proof.
  induction s as [|a r IH]; [done|]. simpl.
  destruct (Ascii.eqb a c); simpl; [by rewrite IH|].
  destruct (Split r c) as [|x xs]; simpl in *; lia.
Qed.

Lemma Split_no_sep (s : string) (c : ascii) : count_char c s = 0 -> Split s c = [s].
Proof.
  induction s as [|a r IH]; [done|]. simpl.
  destruct (Ascii.eqb a c); [lia|]. simpl. intros H. by rewrite IH.
Qed.


Lemma validNameTail_no_char (s : string) (c : ascii) :
  is_lower_alnum c = false -> is_dash c = false ->
  validNameTail s = true -> count_char c s = 0.
Proof.
  intros H1 H2. induction s as [|a r IH]; [done|]. intros Hv. simpl.
  destruct (Ascii.eqb_spec a c) as [-> | _].
  - simpl in Hv. destruct r; [congruence|]. rewrite H1, H2 in Hv. discriminate.
  - simpl. apply IH. simpl in Hv. destruct r; [done|]. apply andb_prop in Hv. apply Hv.
Qed.
















(** ** [RepackSubsets] through its occurrences *)

Lemma fold_left_map_occ {B} (f : B -> occurrence) (l : list B) st :
  fold_left (fun s b => occ_step s (f b)) l st = fold_left occ_step (map f l) st.
Proof. revert st. induction l; intros st; simpl; auto. Qed.

Lemma mapAddressesByPort_occ sub p st :
  mapAddressesByPort sub p st = fold_left occ_step (subset_occ sub p) st.
Proof.
  unfold mapAddressesByPort, subset_occ. rewrite fold_left_app.
  rewrite <- !(fold_left_map_occ (fun a => (a, p, _))). reflexivity.
Qed.

Lemma map_subset_occ st sub :
  map_subset st sub = fold_left occ_step (flat_map (subset_occ sub) (subset_ports sub)) st.
Proof.
  unfold map_subset, subset_ports.
  assert (H : forall ps st, fold_left (fun s p => mapAddressesByPort sub p s) ps st =
                          fold_left occ_step (flat_map (subset_occ sub) ps) st).
  { induction ps as [|p ps IH]; intros st'; simpl; [done|].
    rewrite fold_left_app, <- mapAddressesByPort_occ. apply IH. }
  destruct (es_Ports sub) as [|p ps].
  - simpl. rewrite app_nil_r. apply mapAddressesByPort_occ.
  - apply H.
Qed.

Lemma fold_occ subsets st :
  fold_left map_subset subsets st = fold_left occ_step (occ subsets) st.
Proof.
  revert st. induction subsets as [|sub subs IH]; intros st; simpl; [done|].
  rewrite fold_left_app, <- map_subset_occ. apply IH.
Qed.

Lemma step_P_presence st x p :
  is_Some (portToAddrReadyMap (occ_step st x) !! p) <-> x.1.2 = p \/ is_Some (portToAddrReadyMap st !! p).
Proof.
  destruct x as [[a q] r]. unfold occ_step, mapAddressByPort. simpl.
  destruct (decide (q = p)) as [-> | Hne].
  - rewrite lookup_insert_eq. split; [by left | intros _; eauto].
  - rewrite lookup_insert_ne by done. naive_solver.
Qed.

Lemma step_P_lookup st x p k :
  ready_at (portToAddrReadyMap (occ_step st x)) p k =
  if occ_match p k x then combine_ready (ready_at (portToAddrReadyMap st) p k) (Some x.2)
  else ready_at (portToAddrReadyMap st) p k.
Proof.
  destruct x as [[a q] r]. unfold occ_step, occ_match, mapAddressByPort, ready_at. simpl.
  destruct (decide (q = p)) as [-> | Hne].
  - rewrite lookup_insert_eq. rewrite bool_decide_true by done. simpl.
    destruct (decide (addrKey a = k)) as [<- | Hk].
    + rewrite bool_decide_true by done.
      destruct (portToAddrReadyMap st !! p) as [s|]; simpl.
      * destruct (s !! addrKey a) as [[]|] eqn:E; simpl; rewrite ?E, ?lookup_insert_eq; done.
      * by rewrite lookup_empty, lookup_insert_eq.
    + rewrite bool_decide_false by done.
      destruct (portToAddrReadyMap st !! p) as [s|]; simpl.
      * destruct (s !! addrKey a) as [[]|]; rewrite ?lookup_insert_ne by done; done.
      * by rewrite lookup_empty, lookup_insert_ne, lookup_empty.
  - rewrite lookup_insert_ne by done. rewrite bool_decide_false by done. done.
Qed.

Lemma fold_P_presence l st p :
  is_Some (portToAddrReadyMap (fold_left occ_step l st) !! p) <->
  is_Some (portToAddrReadyMap st !! p) \/ exists x, In x l /\ x.1.2 = p.
Proof.
  revert st. induction l as [|x l IH]; intros st; simpl.
  - naive_solver.
  - rewrite IH, step_P_presence. naive_solver.
Qed.

Lemma fold_P_lookup l st p k :
  ready_at (portToAddrReadyMap (fold_left occ_step l st)) p k =
  combine_ready (ready_at (portToAddrReadyMap st) p k) (occ_ready p k l).
Proof.
  revert st. induction l as [|x l IH]; intros st; simpl.
  - unfold occ_ready. simpl. by destruct (ready_at _ p k) as [[]|].
  - rewrite IH, step_P_lookup. unfold occ_ready. simpl.
    destruct (occ_match p k x) eqn:Em; simpl; [|done].
    assert (Hc : existsb (fun y => occ_match p k y && negb y.2) l = true ->
                 existsb (occ_match p k) l = true).
    { rewrite !existsb_exists. intros (y & Hy & Hm). apply andb_prop in Hm as [Hm _]. eauto. }
    destruct (existsb (fun y => occ_match p k y && negb y.2) l) eqn:Ec;
      destruct (existsb (occ_match p k) l); try (specialize (Hc eq_refl); discriminate);
      destruct (ready_at (portToAddrReadyMap st) p k) as [[]|];
      destruct x as [[a q] []]; simpl; done.
Qed.

Lemma step_A st x k :
  allAddrs (occ_step st x) !! k =
  match allAddrs st !! k with
  | Some a => Some a
  | None => if bool_decide (addrKey x.1.1 = k) then Some x.1.1 else None
  end.
Proof.
  destruct x as [[a q] r]. unfold occ_step, mapAddressByPort. simpl.
  destruct (allAddrs st !! addrKey a) as [b|] eqn:E.
  - destruct (allAddrs st !! k) eqn:E2; [done|].
    case_bool_decide; subst; congruence.
  - destruct (decide (addrKey a = k)) as [<- | Hk].
    + rewrite lookup_insert_eq, E, bool_decide_true; done.
    + rewrite lookup_insert_ne by done. rewrite bool_decide_false by done.
      by destruct (allAddrs st !! k).
Qed.

Lemma fold_A_uniform l st k a0 :
  (forall x, In x l -> addrKey x.1.1 = k -> x.1.1 = a0) ->
  allAddrs (fold_left occ_step l st) !! k =
  match allAddrs st !! k with
  | Some a => Some a
  | None => if existsb (fun x => bool_decide (addrKey x.1.1 = k)) l then Some a0 else None
  end.
Proof.
  revert st. induction l as [|x l IH]; intros st Hu; simpl; [by destruct (allAddrs st !! k)|].
  rewrite IH by (intros y Hy Hk; apply Hu; [by right | done]). rewrite step_A.
  destruct (allAddrs st !! k); [done|].
  case_bool_decide as Hx; simpl; [|done].
  rewrite (Hu x (or_introl eq_refl) Hx). by destruct (existsb _ l).
Qed.

Lemma fold_A_origin l st k a :
  allAddrs (fold_left occ_step l st) !! k = Some a ->
  allAddrs st !! k = Some a \/ exists x, In x l /\ x.1.1 = a /\ addrKey a = k.
Proof.
  revert st. induction l as [|x l IH]; intros st H; simpl in *; [auto|].
  destruct (IH _ H) as [H1 | (y & Hy & Hya & Hk)].
  - rewrite step_A in H1. destruct (allAddrs st !! k) eqn:E; [simplify_eq; auto|].
    case_bool_decide; simplify_eq. right. exists x. split; [by left|]. auto.
  - right. exists y. split; [by right|]. auto.
Qed.

Lemma group_spec_at_other (m : gmap EndpointPort addressSet) G G' i x s :
  m !! i = None -> s <> x -> G' !! s = G !! s ->
  group_spec_at m G s -> group_spec_at (<[i:=x]> m) G' s.
Proof.
  intros Hi Hsx HG [HN HS]. split.
  - rewrite HG, HN. split; intros H q; specialize (H q); rewrite lookup_insert in *;
      case_decide; subst; naive_solver.
  - intros ports Hp p. rewrite HG in Hp. rewrite (HS ports Hp p), lookup_insert.
    case_decide; subst; naive_solver.
Qed.

Lemma groups_ok (P : gmap EndpointPort addressSet) s :
  group_spec_at P (map_fold group_port ∅ P) s.
Proof.
  revert s.
  apply (map_fold_weak_ind (fun G P => forall s, group_spec_at P G s)).
  - intros s. split.
    + split; [intros _ q; by rewrite lookup_empty | done].
    + intros ports H. by rewrite lookup_empty in H.
  - intros i x m G Hi IH s. unfold group_port.
    destruct (decide (s = x)) as [-> | Hne].
    2:{ apply (group_spec_at_other m G); auto.
        case_bool_decide; [by rewrite lookup_insert_ne|].
        destruct (G !! x); [done|]. by rewrite lookup_insert_ne. }
    destruct (IH x) as [HN HS].
    assert (Hx : (forall q, <[i:=x]> m !! q <> Some x) -> False).
    { intros H. apply (H i). by rewrite lookup_insert_eq. }
    case_bool_decide as Hpos.
    + split.
      * rewrite lookup_insert_eq. split; [done|]. intros H. by destruct (Hx H).
      * intros ports Hp p. rewrite lookup_insert_eq in Hp. injection Hp as <-.
        rewrite elem_of_union, elem_of_singleton, lookup_insert.
        destruct (G !! x) as [ports0|] eqn:Ex; simpl.
        -- rewrite (HS ports0 eq_refl p). case_decide; subst; naive_solver.
        -- assert (Hn : forall q, m !! q <> Some x) by (by apply HN).
           rewrite elem_of_empty. case_decide; subst; naive_solver.
    + destruct (G !! x) as [ports0|] eqn:Ex.
      * split.
        -- rewrite Ex. split; [done|]. intros H. by destruct (Hx H).
        -- intros ports Hp p. rewrite Ex in Hp. injection Hp as <-.
           rewrite (HS ports0 eq_refl p), lookup_insert. case_decide; subst; naive_solver.
      * split.
        -- rewrite lookup_insert_eq. split; [done|]. intros H. by destruct (Hx H).
        -- intros ports Hp p. rewrite lookup_insert_eq in Hp. injection Hp as <-.
           assert (Hn : forall q, m !! q <> Some x) by (by apply HN).
           rewrite elem_of_empty, lookup_insert. case_decide; subst; naive_solver.
Qed.

Lemma In_omap {X Y} (f : X -> option Y) (l : list X) y :
  In y (omap f l) <-> exists x, In x l /\ f x = Some y.
Proof.
  rewrite <- list_elem_of_In, list_elem_of_omap.
  split; intros (x & Hx & Hf); exists x; by rewrite <- list_elem_of_In in *.
Qed.

Lemma In_map_to_list {V} (m : gmap addressKey V) k v :
  In (k, v) (map_to_list m) <-> m !! k = Some v.
Proof. by rewrite <- list_elem_of_In, elem_of_map_to_list. Qed.

Lemma In_map_to_list_G (G : gmap addressSet (gset EndpointPort)) s ports :
  In (s, ports) (map_to_list G) <-> G !! s = Some ports.
Proof. by rewrite <- list_elem_of_In, elem_of_map_to_list. Qed.

Lemma subset_occ_elem sub q x :
  In x (subset_occ sub q) <->
  x.1.2 = q /\ ((x.2 = true /\ In x.1.1 (es_Addresses sub)) \/
                (x.2 = false /\ In x.1.1 (es_NotReadyAddresses sub))).
Proof.
  unfold subset_occ. rewrite in_app_iff, !in_map_iff. destruct x as [[a p] r]. simpl.
  split.
  - intros [(a' & [= <- <- <-] & H) | (a' & [= <- <- <-] & H)]; auto.
  - intros [-> [[-> H] | [-> H]]]; [left | right]; eauto.
Qed.

Lemma build_occ_elem A s ports q x :
  In x (subset_occ (build_subset A s ports) q) <->
  x.1.2 = q /\ exists k, s !! k = Some x.2 /\ A !! k = Some x.1.1.
Proof.
  rewrite subset_occ_elem. unfold build_subset. simpl. rewrite !In_omap.
  split.
  - intros [Hq [[Hr ([k r] & Hk & Hf)] | [Hr ([k r] & Hk & Hf)]]]; split; auto;
      apply In_map_to_list in Hk; exists k; destruct r; simpl in Hf; try discriminate;
      rewrite Hr; auto.
  - destruct x as [[a p] r]. simpl. intros [Hq (k & Hk & Ha)]. split; [done|].
    destruct r; [left | right]; split; auto;
      [exists (k, true) | exists (k, false)];
      (split; [by apply In_map_to_list|]); simpl; done.
Qed.

Lemma occ_out_elem A G x :
  In x (occ (repack_out A G)) <->
  exists s ports k, G !! s = Some ports /\
    In x.1.2 (subset_ports (build_subset A s ports)) /\
    s !! k = Some x.2 /\ A !! k = Some x.1.1.
Proof.
  unfold occ, repack_out. rewrite in_flat_map. split.
  - intros (sub & Hsub & Hx). apply in_map_iff in Hsub as ([s ports] & <- & Hin).
    apply In_map_to_list_G in Hin.
    apply in_flat_map in Hx as (q & Hq & Hx). apply build_occ_elem in Hx as [<- (k & Hk & Ha)].
    exists s, ports, k. auto.
  - intros (s & ports & k & HG & Hq & Hk & Ha).
    exists (build_subset A s ports). split.
    + apply in_map_iff. exists (s, ports). split; [done|]. by apply In_map_to_list_G.
    + apply in_flat_map. exists x.1.2. split; [done|]. apply build_occ_elem. eauto.
Qed.

Lemma build_ports_elem A s ports q :
  In q (subset_ports (build_subset A s ports)) <->
  (ports = ∅ /\ q = sentinelPort) \/ q ∈ ports.
Proof.
  unfold subset_ports, build_subset. simpl.
  destruct (elements ports) as [|p ps] eqn:E.
  - apply elements_empty_inv in E. apply leibniz_equiv in E. subst ports.
    simpl. split; [intros [<- | []]; auto|]. intros [[_ ->] | H]; [auto | set_solver].
  - rewrite <- list_elem_of_In, <- E, elem_of_elements. split; [auto|].
    intros [[-> _] | H]; [|done]. rewrite elements_empty in E. discriminate.
Qed.

Lemma RepackSubsets_run subsets :
  RepackSubsets subsets = repack_out (A_of (occ subsets)) (G_of (occ subsets)).
Proof. unfold RepackSubsets, repack_out, G_of, P_of, A_of, repack_run. by rewrite fold_occ. Qed.

Lemma occ_match_true p k x : occ_match p k x = true <-> x.1.2 = p /\ addrKey x.1.1 = k.
Proof. unfold occ_match. by rewrite andb_true_iff, !bool_decide_eq_true. Qed.

Lemma occ_ready_Some p k l r :
  occ_ready p k l = Some r <->
  (exists x, In x l /\ x.1.2 = p /\ addrKey x.1.1 = k) /\
  (r = false <-> exists x, In x l /\ x.1.2 = p /\ addrKey x.1.1 = k /\ x.2 = false).
Proof.
  unfold occ_ready.
  assert (E1 : existsb (occ_match p k) l = true <-> exists x, In x l /\ x.1.2 = p /\ addrKey x.1.1 = k).
  { rewrite existsb_exists. split; intros (x & Hx & H); exists x;
      [rewrite occ_match_true in H | rewrite occ_match_true]; naive_solver. }
  assert (E2 : existsb (fun x => occ_match p k x && negb x.2) l = true <->
               exists x, In x l /\ x.1.2 = p /\ addrKey x.1.1 = k /\ x.2 = false).
  { rewrite existsb_exists. split; intros (x & Hx & H); exists x.
    - rewrite andb_true_iff, occ_match_true, negb_true_iff in H. naive_solver.
    - rewrite andb_true_iff, occ_match_true, negb_true_iff. naive_solver. }
  destruct (existsb (occ_match p k) l) eqn:Em.
  - split.
    + intros [= <-]. split; [by apply E1|]. rewrite <- E2.
      destruct (existsb (fun x => occ_match p k x && negb x.2) l); simpl; split; done.
    + intros [_ Hr]. f_equal. destruct r.
      * destruct (existsb (fun x => occ_match p k x && negb x.2) l) eqn:Er; [|done].
        exfalso. assert (F : true = false) by (apply Hr, E2; done). discriminate.
      * by rewrite (proj2 E2 (proj1 Hr eq_refl)).
  - split; [done|]. intros [H _]. apply E1 in H. discriminate.
Qed.

Lemma occ_ready_None p k l :
  occ_ready p k l = None <-> ~ exists x, In x l /\ x.1.2 = p /\ addrKey x.1.1 = k.
Proof.
  split.
  - intros H (x & Hx & Hp & Hk).
    assert (Hm : existsb (occ_match p k) l = true).
    { apply existsb_exists. exists x. by rewrite occ_match_true. }
    unfold occ_ready in H. by rewrite Hm in H.
  - intros H. destruct (occ_ready p k l) eqn:E; [|done].
    apply occ_ready_Some in E as [E _]. done.
Qed.

Lemma run_P_presence l p :
  is_Some (P_of l !! p) <-> exists x, In x l /\ x.1.2 = p.
Proof.
  unfold P_of, repack_run. rewrite fold_P_presence. simpl. rewrite lookup_empty.
  split; [intros [[? ?] | H]; [discriminate | done] | auto].
Qed.

Lemma run_P_ready l p k : ready_at (P_of l) p k = occ_ready p k l.
Proof.
  unfold P_of, repack_run. rewrite fold_P_lookup. simpl. unfold ready_at at 1.
  by rewrite lookup_empty.
Qed.

Lemma fold_A_presence l st k :
  is_Some (allAddrs (fold_left occ_step l st) !! k) <->
  is_Some (allAddrs st !! k) \/ exists x, In x l /\ addrKey x.1.1 = k.
Proof.
  revert st. induction l as [|x l IH]; intros st; simpl; [naive_solver|].
  rewrite IH, step_A. destruct (allAddrs st !! k) eqn:E.
  - naive_solver.
  - case_bool_decide; naive_solver.
Qed.

Lemma run_A_presence l k :
  is_Some (A_of l !! k) <-> exists x, In x l /\ addrKey x.1.1 = k.
Proof.
  unfold A_of, repack_run. rewrite fold_A_presence. simpl. rewrite lookup_empty.
  split; [intros [[? ?] | H]; [discriminate | done] | auto].
Qed.

Lemma run_A_key l k a : A_of l !! k = Some a -> addrKey a = k.
Proof.
  unfold A_of, repack_run. intros H. apply fold_A_origin in H as [H | (x & _ & _ & H)]; [|done].
  simpl in H. by rewrite lookup_empty in H.
Qed.

Lemma run_A_origin l k a : A_of l !! k = Some a -> exists x, In x l /\ x.1.1 = a /\ addrKey a = k.
Proof.
  unfold A_of, repack_run. intros H. apply fold_A_origin in H as [H | H]; [|done].
  simpl in H. by rewrite lookup_empty in H.
Qed.

(** Lookups in [P_of l] through the occurrences. *)
Lemma run_P_entry l p s k r :
  P_of l !! p = Some s -> s !! k = Some r ->
  exists x, In x l /\ x.1.2 = p /\ addrKey x.1.1 = k.
Proof.
  intros Hp Hk. assert (H : ready_at (P_of l) p k = Some r) by (unfold ready_at; by rewrite Hp).
  rewrite run_P_ready in H. by apply occ_ready_Some in H as [H _].
Qed.

Lemma run_P_has l x : In x l -> exists s r, P_of l !! x.1.2 = Some s /\ s !! addrKey x.1.1 = Some r.
Proof.
  intros Hx. destruct (occ_ready x.1.2 (addrKey x.1.1) l) as [r|] eqn:E.
  - rewrite <- run_P_ready in E. unfold ready_at in E.
    destruct (P_of l !! x.1.2) as [s|]; [|done]. eauto.
  - apply occ_ready_None in E. exfalso. apply E. eauto.
Qed.

Lemma run_P_nonempty l p s : P_of l !! p = Some s -> exists k r, s !! k = Some r.
Proof.
  intros Hp. destruct (proj1 (run_P_presence l p) ltac:(eauto)) as (x & Hx & <-).
  destruct (run_P_has l x Hx) as (s' & r & Hs' & Hr). rewrite Hp in Hs'. simplify_eq. eauto.
Qed.

Lemma run_P_in_A l p s k r : P_of l !! p = Some s -> s !! k = Some r -> exists a, A_of l !! k = Some a.
Proof.
  intros Hp Hk. destruct (run_P_entry l p s k r Hp Hk) as (x & Hx & _ & Hxk).
  apply run_A_presence. eauto.
Qed.

Lemma run_A_in_P l k a : A_of l !! k = Some a -> exists p s r, P_of l !! p = Some s /\ s !! k = Some r.
Proof.
  intros Ha. destruct (run_A_origin l k a Ha) as (x & Hx & <- & Hk).
  destruct (run_P_has l x Hx) as (s & r & Hs & Hr). rewrite Hk in Hr. eauto.
Qed.

Lemma run_P_ports l p s : ports_ok l -> P_of l !! p = Some s -> (0 < ep_Port p)%Z \/ p = sentinelPort.
Proof.
  intros Hok Hp. destruct (proj1 (run_P_presence l p) ltac:(eauto)) as (x & Hx & <-). auto.
Qed.

Lemma sentinel_not_pos : ~ (0 < ep_Port sentinelPort)%Z.
Proof. simpl. lia. Qed.

Lemma G_some l s q : P_of l !! q = Some s -> exists ports, G_of l !! s = Some ports.
Proof.
  intros Hq. destruct (groups_ok (P_of l) s) as [HN _]. unfold G_of.
  destruct (map_fold group_port ∅ (P_of l) !! s) as [ports|] eqn:E; [eauto|].
  exfalso. by apply (proj1 HN eq_refl q).
Qed.

Lemma P_value_dec (P : gmap EndpointPort addressSet) s :
  {exists q, P !! q = Some s} + {~ exists q, P !! q = Some s}.
Proof.
  destruct (decide (Exists (fun kv : EndpointPort * addressSet => kv.2 = s) (map_to_list P))) as [H|H].
  - left. apply Exists_exists in H as ([q v] & Hin & Hv). simpl in Hv. subst v.
    exists q. by apply elem_of_map_to_list.
  - right. intros (q & Hq). apply H, Exists_exists. exists (q, s). split; [|done].
    by apply elem_of_map_to_list.
Qed.

Lemma G_origin l s ports : G_of l !! s = Some ports -> exists q, P_of l !! q = Some s.
Proof.
  intros HG. destruct (groups_ok (P_of l) s) as [HN _]. unfold G_of in HG.
  destruct (P_value_dec (P_of l) s) as [H|H]; [done|].
  exfalso. assert (Hn : map_fold group_port ∅ (P_of l) !! s = None)
    by (apply HN; intros q Hq; apply H; eauto).
  congruence.
Qed.

Lemma G_mem l s ports p :
  G_of l !! s = Some ports -> p ∈ ports <-> (0 < ep_Port p)%Z /\ P_of l !! p = Some s.
Proof. intros HG. destruct (groups_ok (P_of l) s) as [_ HS]. by apply HS. Qed.

Lemma second_match l q k (R : bool -> Prop) :
  (exists x, In x (repacked_occ l) /\ x.1.2 = q /\ addrKey x.1.1 = k /\ R x.2) <->
  exists s ports r, G_of l !! s = Some ports /\
    In q (subset_ports (build_subset (A_of l) s ports)) /\ s !! k = Some r /\ R r.
Proof.
  unfold repacked_occ. split.
  - intros (x & Hx & Hq & Hk & HR). apply occ_out_elem in Hx as (s & ports & k' & HG & Hp & Hs & Ha).
    apply run_A_key in Ha. rewrite Hk in Ha. subst k' q. eauto 10.
  - intros (s & ports & r & HG & Hq & Hs & HR).
    destruct (G_origin l s ports HG) as (p & Hp).
    destruct (run_P_in_A l p s k r Hp Hs) as (a & Ha).
    exists (a, q, r). simpl. split; [|split; [done|split; [by apply run_A_key in Ha|done]]].
    apply occ_out_elem. simpl. eauto 10.
Qed.

Lemma second_match_pos l q k (R : bool -> Prop) :
  (0 < ep_Port q)%Z ->
  (exists x, In x (repacked_occ l) /\ x.1.2 = q /\ addrKey x.1.1 = k /\ R x.2) <->
  exists r, ready_at (P_of l) q k = Some r /\ R r.
Proof.
  intros Hq. rewrite second_match. unfold ready_at. split.
  - intros (s & ports & r & HG & Hin & Hs & HR). apply build_ports_elem in Hin as [[_ ->] | Hin].
    + by apply sentinel_not_pos in Hq.
    + apply (G_mem l s ports q HG) in Hin as [_ ->]. eauto.
  - intros (r & Hr & HR). destruct (P_of l !! q) as [s|] eqn:Hp; [|done].
    destruct (G_some l s q Hp) as (ports & HG). exists s, ports, r.
    split; [done|]. split; [|done]. apply build_ports_elem. right. by apply (G_mem l s ports q HG).
Qed.

Lemma second_match_sent l k (R : bool -> Prop) :
  (exists x, In x (repacked_occ l) /\ x.1.2 = sentinelPort /\ addrKey x.1.1 = k /\ R x.2) <->
  exists s r, G_of l !! s = Some ∅ /\ s !! k = Some r /\ R r.
Proof.
  rewrite second_match. split.
  - intros (s & ports & r & HG & Hin & Hs & HR). apply build_ports_elem in Hin as [[-> _] | Hin].
    + eauto.
    + apply (G_mem l s ports _ HG) in Hin as [Hp _]. by apply sentinel_not_pos in Hp.
  - intros (s & r & HG & Hs & HR). exists s, ∅, r. split; [done|]. split; [|done].
    apply build_ports_elem. auto.
Qed.

Lemma second_ports_ok l : ports_ok (repacked_occ l).
Proof.
  intros x Hx. unfold repacked_occ in Hx. apply occ_out_elem in Hx as (s & ports & k & HG & Hin & _).
  apply build_ports_elem in Hin as [[_ ->] | Hin]; [by right|].
  left. by apply (G_mem l s ports _ HG) in Hin as [Hp _].
Qed.

Lemma G_alone l s : ports_ok l -> G_of l !! s = Some ∅ -> P_of l !! sentinelPort = Some s.
Proof.
  intros Hok HG. destruct (G_origin l s ∅ HG) as (q & Hq).
  destruct (run_P_ports l q s Hok Hq) as [Hpos | ->]; [|done].
  exfalso. assert (Hin : q ∈ (∅ : gset EndpointPort)) by (apply (G_mem l s ∅ q HG); auto).
  set_solver.
Qed.

(** Equality of a lookup in [P_of ls] with a given map, through the occurrences. *)
Lemma run_P_eq_at (ls : list occurrence) (m : gmap EndpointPort addressSet) q :
  (forall s, m !! q = Some s -> exists k r, s !! k = Some r) ->
  (forall k (R : bool -> Prop),
     (exists x, In x ls /\ x.1.2 = q /\ addrKey x.1.1 = k /\ R x.2) <->
     exists r, ready_at m q k = Some r /\ R r) ->
  P_of ls !! q = m !! q.
Proof.
  intros Hne Hm.
  assert (Hready : forall k, ready_at (P_of ls) q k = ready_at m q k).
  { intros k. rewrite run_P_ready. destruct (ready_at m q k) as [r|] eqn:Er.
    - apply occ_ready_Some. split.
      + destruct (proj2 (Hm k (fun _ => True)) ltac:(eauto)) as (x & ? & ? & ? & _). eauto.
      + split.
        * intros ->. destruct (proj2 (Hm k (fun b => b = false)) ltac:(eauto)) as (x & ?). eauto.
        * intros (x & Hx & Hq & Hk & Hr).
          destruct (proj1 (Hm k (fun b => b = false)) ltac:(eauto 10)) as (r' & Hr' & ->).
          congruence.
    - apply occ_ready_None. intros (x & Hx & Hq & Hk).
      destruct (proj1 (Hm k (fun _ => True)) ltac:(eauto 10)) as (r & Hr & _). congruence. }
  assert (Hpres : is_Some (P_of ls !! q) <-> is_Some (m !! q)).
  { rewrite run_P_presence. split.
    - intros (x & Hx & Hq).
      destruct (proj1 (Hm (addrKey x.1.1) (fun _ => True)) ltac:(eauto 10)) as (r & Hr & _).
      unfold ready_at in Hr. destruct (m !! q); [eauto | done].
    - intros [s Hs]. destruct (Hne s Hs) as (k & r & Hk).
      destruct (proj2 (Hm k (fun _ => True))) as (x & Hx & Hq & _).
      + exists r. unfold ready_at. by rewrite Hs.
      + eauto. }
  destruct (P_of ls !! q) as [s1|] eqn:E1, (m !! q) as [s2|] eqn:E2.
  - f_equal. apply map_eq. intros k. specialize (Hready k). unfold ready_at in Hready.
    by rewrite E1, E2 in Hready.
  - destruct (proj1 Hpres ltac:(eauto)). done.
  - destruct (proj2 Hpres ltac:(eauto)). done.
  - done.
Qed.

Lemma run_P_none_at (ls : list occurrence) q : (forall x, In x ls -> x.1.2 <> q) -> P_of ls !! q = None.
Proof.
  intros H. destruct (P_of ls !! q) eqn:E; [|done].
  destruct (proj1 (run_P_presence ls q) ltac:(eauto)) as (x & Hx & Hq). by apply H in Hx.
Qed.

Lemma P2_pos l q : (0 < ep_Port q)%Z -> P_of (repacked_occ l) !! q = P_of l !! q.
Proof.
  intros Hq. apply run_P_eq_at.
  - intros s Hs. by apply (run_P_nonempty l q).
  - intros k R. by apply second_match_pos.
Qed.

Lemma P2_alone l s0 :
  ports_ok l -> P_of l !! sentinelPort = Some s0 -> G_of l !! s0 = Some ∅ ->
  P_of (repacked_occ l) !! sentinelPort = Some s0.
Proof.
  intros Hok Hp HG. rewrite <- Hp. apply run_P_eq_at.
  - intros s Hs. by apply (run_P_nonempty l sentinelPort).
  - intros k R. rewrite second_match_sent. unfold ready_at. rewrite Hp. split.
    + intros (s & r & HGs & Hs & HR). apply (G_alone l s Hok) in HGs. rewrite Hp in HGs.
      simplify_eq. eauto.
    + intros (r & Hr & HR). eauto.
Qed.

Lemma P2_not_alone l :
  ports_ok l -> (forall s, G_of l !! s <> Some ∅) -> P_of (repacked_occ l) !! sentinelPort = None.
Proof.
  intros Hok HG. apply run_P_none_at. intros x Hx Hq.
  destruct (proj1 (second_match_sent l (addrKey x.1.1) (fun _ => True)) ltac:(eauto 10))
    as (s & r & HGs & _). by apply (HG s).
Qed.

Lemma P2_other l q :
  ~ (0 < ep_Port q)%Z -> q <> sentinelPort -> P_of (repacked_occ l) !! q = None.
Proof.
  intros Hpos Hs. apply run_P_none_at. intros x Hx <-.
  destruct (second_ports_ok l x Hx); auto.
Qed.

Lemma P2_sent_some l s :
  ports_ok l -> P_of (repacked_occ l) !! sentinelPort = Some s -> P_of l !! sentinelPort = Some s.
Proof.
  intros Hok H.
  destruct (proj1 (run_P_presence (repacked_occ l) sentinelPort) ltac:(eauto)) as (x & Hx & Hq).
  destruct (proj1 (second_match_sent l (addrKey x.1.1) (fun _ => True)) ltac:(eauto 10))
    as (s' & r & HGs & _).
  pose proof (G_alone l s' Hok HGs) as Hp.
  rewrite (P2_alone l s' Hok Hp HGs) in H. by simplify_eq.
Qed.

Lemma gset_empty_dec (X : gset EndpointPort) : {X = ∅} + {exists p, p ∈ X}.
Proof.
  destruct (elements X) as [|p ps] eqn:E.
  - left. apply leibniz_equiv. by apply elements_empty_inv.
  - right. exists p. apply elem_of_elements. rewrite E. left.
Qed.

Lemma P2_range l s :
  ports_ok l ->
  ((forall q, P_of (repacked_occ l) !! q <> Some s) <-> (forall q, P_of l !! q <> Some s)).
Proof.
  intros Hok. split.
  - intros H2 q Hq. destruct (run_P_ports l q s Hok Hq) as [Hpos | ->].
    + apply (H2 q). by rewrite P2_pos.
    + destruct (G_some l s _ Hq) as (ports & HG).
      destruct (gset_empty_dec ports) as [-> | (p & Hp)].
      * apply (H2 sentinelPort). by apply P2_alone.
      * apply (G_mem l s ports p HG) in Hp as [Hpos Hps]. apply (H2 p). by rewrite P2_pos.
  - intros H q Hq. destruct (decide (0 < ep_Port q)%Z) as [Hpos|Hpos].
    + rewrite P2_pos in Hq by done. by apply (H q).
    + destruct (decide (q = sentinelPort)) as [-> | Hne].
      * apply (H sentinelPort). by apply P2_sent_some.
      * by rewrite P2_other in Hq.
Qed.

Lemma group_spec_unique P1 P2 G1 G2 s :
  group_spec_at P1 G1 s -> group_spec_at P2 G2 s ->
  ((forall q, P1 !! q <> Some s) <-> (forall q, P2 !! q <> Some s)) ->
  (forall p, (0 < ep_Port p)%Z -> P1 !! p = Some s <-> P2 !! p = Some s) ->
  G1 !! s = G2 !! s.
Proof.
  intros [HN1 HS1] [HN2 HS2] Hr Hp.
  destruct (G1 !! s) as [X1|] eqn:E1, (G2 !! s) as [X2|] eqn:E2.
  - f_equal. apply leibniz_equiv. intros p.
    rewrite (HS1 X1 eq_refl p), (HS2 X2 eq_refl p). split; intros [Hpos H]; split; auto;
      by apply Hp.
  - exfalso. pose proof (proj2 Hr (proj1 HN2 eq_refl)) as H. apply HN1 in H. congruence.
  - exfalso. pose proof (proj1 Hr (proj1 HN1 eq_refl)) as H. apply HN2 in H. congruence.
  - done.
Qed.

Lemma G2_eq l : ports_ok l -> G_of (repacked_occ l) = G_of l.
Proof.
  intros Hok. apply map_eq. intros s. unfold G_of.
  apply (group_spec_unique (P_of (repacked_occ l)) (P_of l));
    [apply groups_ok | apply groups_ok | by apply P2_range |].
  intros p Hp. by rewrite P2_pos.
Qed.

Lemma subset_ports_nonempty sub : exists q, In q (subset_ports sub).
Proof. unfold subset_ports. destruct (es_Ports sub) as [|p ps]; simpl; eauto. Qed.

Lemma A2_eq l : A_of (repacked_occ l) = A_of l.
Proof.
  apply map_eq. intros k. destruct (A_of l !! k) as [a0|] eqn:Ha.
  - unfold A_of at 1, repack_run. rewrite (fold_A_uniform _ _ k a0).
    + simpl. rewrite lookup_empty.
      destruct (run_A_in_P l k a0 Ha) as (p & s & r & Hp & Hs).
      destruct (G_some l s p Hp) as (ports & HG).
      destruct (subset_ports_nonempty (build_subset (A_of l) s ports)) as (q & Hq).
      replace (existsb _ _) with true; [done|]. symmetry. apply existsb_exists.
      exists (a0, q, r). split; [|simpl; apply bool_decide_eq_true; by apply run_A_key in Ha].
      unfold repacked_occ. apply occ_out_elem. simpl. eauto 10.
    + intros x Hx Hk. unfold repacked_occ in Hx. apply occ_out_elem in Hx as (s & ports & k' & _ & _ & _ & Hk').
      pose proof (run_A_key l k' x.1.1 Hk') as Hkey. rewrite Hk in Hkey. subst k'. congruence.
  - destruct (A_of (repacked_occ l) !! k) as [a|] eqn:Ha2; [|done].
    apply run_A_origin in Ha2 as (x & Hx & <- & Hk). unfold repacked_occ in Hx.
    apply occ_out_elem in Hx as (s & ports & k' & _ & _ & _ & Hk').
    pose proof (run_A_key l k' x.1.1 Hk') as Hkey. rewrite Hk in Hkey. subst k'. congruence.
Qed.

Lemma occ_ports_ok subsets :
  Forall (fun sub => Forall (fun p => (0 < ep_Port p)%Z) (es_Ports sub)) subsets ->
  ports_ok (occ subsets).
Proof.
  intros Hall x Hx. unfold occ in Hx. apply in_flat_map in Hx as (sub & Hsub & Hx).
  apply in_flat_map in Hx as (q & Hq & Hx). apply subset_occ_elem in Hx as [-> _].
  rewrite Forall_forall in Hall. specialize (Hall sub (proj2 (list_elem_of_In _ _) Hsub)).
  unfold subset_ports in Hq. destruct (es_Ports sub) as [|p ps] eqn:E.
  - destruct Hq as [<- | []]. by right.
  - left. rewrite Forall_forall in Hall. apply Hall. by apply list_elem_of_In.
Qed.

(** ** C1 *)

(** C1: when the Service's selection annotation parses to more than one
    element, [sync] returns an error, adds exactly one event (a Warning on
    the Service) and nothing else but two log lines: the cache, including
    every Endpoints object, is unchanged, no Endpoints update is sent, and
    the outcome is the same whatever the cached Endpoints are. *)
Theorem sync_multiple_selections_aborts (env : Env) (key namespace name : string)
    (s : St) (svc : Service) (networks : list NetworkSelectionElement) :
  SplitMetaNamespaceKey key = Ok (namespace, name) ->
  c_services (st_cache s) !! store_key namespace name = Some svc ->
  parsePodNetworkSelections (getNetworkAnnotations (svc_Meta svc)) namespace = Ok networks ->
  1 < length networks ->
  sync env key s = (Err multipleSelectionsMsg, aborted_state s svc).
Proof.
  intros Hkey Hsvc Hparse Hlen.
  unfold sync.
  erewrite bind_ok by (unfold lift; rewrite Hkey; reflexivity). cbv beta iota.
  erewrite bind_ok by (unfold serviceGet; rewrite Hsvc; reflexivity). cbv beta iota.
  rewrite (parse_nonempty _ _ _ Hparse).
  unfold mbind, M_bind, klog, lift. cbn [fst snd].
  rewrite Hparse.
  destruct (Nat.ltb_spec 1 (length networks)); [|lia].
  unfold record_event, fail, aborted_state. cbn. by rewrite <- (app_assoc (st_logs s)).
Qed.

(** C1, at a Service [default/svc1] selecting networks [a] and [b]. *)
Lemma sync_multiple_selections_aborts_witness :
  sync ex_env "default/svc1" (ex_st (ex_cache "a,b" [ex_pod1]))
  = (Err multipleSelectionsMsg, aborted_state (ex_st (ex_cache "a,b" [ex_pod1])) (ex_svc "a,b")).
Proof.
  apply (sync_multiple_selections_aborts ex_env "default/svc1" "default" "svc1" _ (ex_svc "a,b")
           [{| nse_Name := "a"; nse_Namespace := "default"; nse_InterfaceRequest := "" |};
            {| nse_Name := "b"; nse_Namespace := "default"; nse_InterfaceRequest := "" |}]).
  - reflexivity.
  - vm_compute. reflexivity.
  - vm_compute. reflexivity.
  - simpl. lia.
Defined.

(** ** C4 *)

(** C4 (as the code does it): when the Service of the key is not in the
    cache, [sync] returns the lister's NotFound error, the same way as any
    other failure, and changes nothing (no event, no update, no log line);
    [processNextWorkItem] then logs the error at verbosity 4 as an Info
    line (not as an error), marks the key done without queueing it again,
    and returns [true]. *)
Theorem sync_missing_service_not_found (env : Env) (key namespace name : string)
    (s : St) (q q' : Queue) :
  SplitMetaNamespaceKey key = Ok (namespace, name) ->
  c_services (st_cache s) !! store_key namespace name = None ->
  queue_Get q = Some (Some key, q') ->
  sync env key s = (Err (NotFound_msg "service" name), s) /\
  processNextWorkItem env q s =
    (Ok (Some (true, queue_Done key q')),
     append_log s {| log_Level := Info 4;
                     log_Msg := "sync aborted: " +:+ NotFound_msg "service" name |}).
Proof.
  intros Hkey Hsvc Hq.
  assert (Hsync : sync env key s = (Err (NotFound_msg "service" name), s)).
  { unfold sync.
    erewrite bind_ok by (unfold lift; rewrite Hkey; reflexivity). cbv beta iota.
    apply bind_err. unfold serviceGet. by rewrite Hsvc. }
  split; [exact Hsync|].
  unfold processNextWorkItem. rewrite Hq.
  erewrite bind_ok by (unfold sync_err; rewrite Hsync; reflexivity).
  reflexivity.
Qed.

(** C4, at a key naming a Service that is not cached. *)
Lemma sync_missing_service_not_found_witness :
  let q := {| q_queue := ["default/svc2"]; q_dirty := {["default/svc2"]};
              q_processing := ∅; q_shuttingDown := false |} in
  let s := ex_st (ex_cache "foo" [ex_pod1]) in
  match queue_Get q with
  | Some (Some key, q') =>
      sync ex_env key s = (Err (NotFound_msg "service" "svc2"), s) /\
      processNextWorkItem ex_env q s =
        (Ok (Some (true, queue_Done key q')),
         append_log s {| log_Level := Info 4;
                         log_Msg := "sync aborted: " +:+ NotFound_msg "service" "svc2" |})
  | _ => False
  end.
Proof.
  cbv zeta. simpl queue_Get. cbv iota.
  apply (sync_missing_service_not_found ex_env "default/svc2" "default" "svc2").
  - reflexivity.
  - vm_compute. reflexivity.
  - reflexivity.
Defined.

(** C4, as the claim states it, fails: [sync] does report an error for a
    key whose Service is not cached. *)
Lemma sync_missing_service_reports_error :
  fst (sync ex_env "default/svc2" (ex_st (ex_cache "foo" [ex_pod1])))
  = Err ("service " +:+ String dquote ("svc2" +:+ String dquote " not found")).
Proof. vm_compute. reflexivity. Qed.

(** ** C9 *)

Lemma fill_missing_some (d : string) (l : list NetworkSelectionElement) :
  fill_missing_namespaces d (map Some l) = Ok (map (fill_namespace d) l).
Proof. induction l as [|e l IH]; [done|]. simpl. by rewrite IH. Qed.

(** On the JSON path the decoded elements are returned as they are, with
    only the namespace filled in. *)
Lemma parse_json_path (raw d : string) (l : list NetworkSelectionElement) :
  raw <> "" ->
  json_Unmarshal_selections raw = (map Some l, false) ->
  parsePodNetworkSelections raw d = Ok (map (fill_namespace d) l).
Proof.
  intros Hne Hj. unfold parsePodNetworkSelections.
  destruct (Nat.eqb_spec (String.length raw) 0) as [H0|_].
  { destruct raw; [congruence | simpl in H0; lia]. }
  rewrite Hj. apply fill_missing_some.
Qed.

(** C9: the JSON input [[{"name":"BR0"}]] is accepted and returns the
    name [BR0], which does not match the label pattern, while the same name
    on the comma-separated path is an error. *)
Theorem json_path_skips_validation :
  parsePodNetworkSelections (qj "[{'name':'BR0'}]") "x"
    = Ok [{| nse_Name := "BR0"; nse_Namespace := "x"; nse_InterfaceRequest := "" |}] /\
  validNameRegex_MatchString "BR0" = false /\
  parsePodNetworkSelections "BR0" "x"
    = Err "error parsing network selection element: at least one of the network selection units is invalid: error found at 'BR0'".
Proof. vm_compute. auto. Qed.

(** ** C10 *)

(** C10: matching a status entry against the selection looks at names
    only (changing the namespaces of the selection elements changes
    nothing), and a Service selecting [other/foo] gets the address of a
    pod of namespace [default] whose status entry is named [foo]. *)
Theorem status_match_ignores_namespace :
  (forall (name ns : string) (networks : list NetworkSelectionElement),
     isInNetworkSelectionElementsArray name (map (with_namespace ns) networks)
     = isInNetworkSelectionElementsArray name networks) /\
  parsePodNetworkSelections "other/foo" "default"
    = Ok [{| nse_Name := "foo"; nse_Namespace := "other"; nse_InterfaceRequest := "" |}] /\
  om_Namespace (pod_Meta ex_pod1) = "default" /\
  (let '(r, s') := sync ex_env "default/svc1" (ex_st (ex_cache "other/foo" [ex_pod1])) in
   r = Ok tt /\
   exists ep, st_updates s' = [ep] /\
     exists sub, sub ∈ eps_Subsets ep /\ ex_addr1 ∈ es_Addresses sub).
Proof.
  split.
  { intros name ns networks. induction networks as [|n l IH]; [done|]. simpl. by rewrite IH. }
  vm_compute. split; [done|]. split; [done|]. split; [done|].
  eexists. split; [reflexivity|]. eexists. split; left.
Qed.

(** ** C7 *)




(** ** C8 *)



(** ** C3 *)

Lemma fill_missing_namespaces_ok (d : string) sels l :
  fill_missing_namespaces d sels = Ok l ->
  exists l0, sels = map Some l0 /\ l = map (fill_namespace d) l0.
Proof.
  revert l. induction sels as [|[e|] sels IH]; intros l H; simpl in H.
  - simplify_eq. by exists [].
  - destruct (fill_missing_namespaces d sels) as [r|m|] eqn:E; simplify_eq.
    destruct (IH r eq_refl) as (l0 & -> & ->). by exists (e :: l0).
  - discriminate.
Qed.

Lemma fill_namespace_fields (d : string) (e : NetworkSelectionElement) :
  nse_Name (fill_namespace d e) = nse_Name e /\
  nse_InterfaceRequest (fill_namespace d e) = nse_InterfaceRequest e /\
  nse_Namespace (fill_namespace d e) =
    (if String.eqb (nse_Namespace e) "" then d else nse_Namespace e).
Proof. unfold fill_namespace. by destruct (String.eqb _ _). Qed.

(** C3 (as the code does it): a successful parse returns the elements
    decoded from JSON, or those of the comma-separated path, with the same
    namespace fill applied: an element keeps its name, interface and
    non-empty namespace, and an empty namespace becomes [defaultNamespace].
    So every namespace is non-empty when [defaultNamespace] is. *)
Theorem parse_fills_namespace (raw d : string) (l : list NetworkSelectionElement) :
  parsePodNetworkSelections raw d = Ok l ->
  exists l0,
    l = map (fill_namespace d) l0 /\
    (json_Unmarshal_selections raw = (map Some l0, false) \/
     exists partial, json_Unmarshal_selections raw = (partial, true) /\
       parse_comma_units (Split raw ",") d partial = Ok (map Some l0)) /\
    Forall2 (fun e0 e => nse_Name e = nse_Name e0 /\
                         nse_InterfaceRequest e = nse_InterfaceRequest e0 /\
                         nse_Namespace e =
                           (if String.eqb (nse_Namespace e0) "" then d else nse_Namespace e0))
      l0 l /\
    (d <> "" -> Forall (fun e => nse_Namespace e <> "") l).
Proof.
  unfold parsePodNetworkSelections. intros H.
  destruct (Nat.eqb _ 0); [discriminate|].
  destruct (json_Unmarshal_selections raw) as [sels err] eqn:Ej.
  assert (Hsh : exists sels', fill_missing_namespaces d sels' = Ok l /\
            (err = false /\ sels' = sels \/
             err = true /\ parse_comma_units (Split raw ",") d sels = Ok sels')).
  { destruct err.
    - destruct (parse_comma_units _ _ _) as [sels'|e|] eqn:Ec; try discriminate.
      exists sels'. auto.
    - exists sels. auto. }
  destruct Hsh as (sels' & Hf & Hpath).
  destruct (fill_missing_namespaces_ok d sels' l Hf) as (l0 & -> & ->).
  exists l0. split; [done|]. split.
  { destruct Hpath as [[-> <-] | [-> Hc]]; [by left|]. right. eauto. }
  split.
  - apply Forall2_fmap_r, Forall_Forall2_diag, Forall_forall. intros e _.
    apply fill_namespace_fields.
  - intros Hd. apply Forall_fmap, Forall_forall. intros e _.
    unfold fill_namespace. simpl.
    destruct (String.eqb_spec (nse_Namespace e) ""); simpl; done.
Qed.

(** C3, on the comma-separated path with one explicit namespace. *)
Lemma parse_fills_namespace_witness :
  exists l0,
    [{| nse_Name := "bar"; nse_Namespace := "foo"; nse_InterfaceRequest := "" |};
     {| nse_Name := "baz"; nse_Namespace := "default"; nse_InterfaceRequest := "eth1" |}]
      = map (fill_namespace "default") l0 /\
    (json_Unmarshal_selections "foo/bar, baz@eth1" = (map Some l0, false) \/
     exists partial, json_Unmarshal_selections "foo/bar, baz@eth1" = (partial, true) /\
       parse_comma_units (Split "foo/bar, baz@eth1" ",") "default" partial = Ok (map Some l0)) /\
    Forall2 (fun e0 e => nse_Name e = nse_Name e0 /\
                         nse_InterfaceRequest e = nse_InterfaceRequest e0 /\
                         nse_Namespace e =
                           (if String.eqb (nse_Namespace e0) "" then "default" else nse_Namespace e0))
      l0 [{| nse_Name := "bar"; nse_Namespace := "foo"; nse_InterfaceRequest := "" |};
          {| nse_Name := "baz"; nse_Namespace := "default"; nse_InterfaceRequest := "eth1" |}] /\
    ("default" <> "" ->
     Forall (fun e => nse_Namespace e <> "")
       [{| nse_Name := "bar"; nse_Namespace := "foo"; nse_InterfaceRequest := "" |};
        {| nse_Name := "baz"; nse_Namespace := "default"; nse_InterfaceRequest := "eth1" |}]).
Proof.
  apply (parse_fills_namespace "foo/bar, baz@eth1" "default").
  vm_compute. reflexivity.
Defined.

(** C3, as the claim states it, fails: with an empty [defaultNamespace]
    a name without namespace is returned with an empty namespace. *)
Lemma parse_empty_default_namespace :
  parsePodNetworkSelections "br0" ""
  = Ok [{| nse_Name := "br0"; nse_Namespace := ""; nse_InterfaceRequest := "" |}].
Proof. vm_compute. reflexivity. Qed.

(** ** C5 *)



(** ** C2 *)



(** ** C6 *)

(** C6 (as the code does it): [RepackSubsets] is idempotent on subsets
    whose ports are all numbered above 0: repacking its result again gives
    the same list. *)
Theorem RepackSubsets_idempotent subsets :
  Forall (fun sub => Forall (fun p => (0 < ep_Port p)%Z) (es_Ports sub)) subsets ->
  RepackSubsets (RepackSubsets subsets) = RepackSubsets subsets.
Proof.
  intros Hall. pose proof (occ_ports_ok subsets Hall) as Hok.
  rewrite (RepackSubsets_run (RepackSubsets subsets)), (RepackSubsets_run subsets).
  change (repack_out (A_of (repacked_occ (occ subsets))) (G_of (repacked_occ (occ subsets))) =
          repack_out (A_of (occ subsets)) (G_of (occ subsets))).
  by rewrite A2_eq, G2_eq.
Qed.

Lemma RepackSubsets_idempotent_witness :
  Forall (fun sub => Forall (fun p => (0 < ep_Port p)%Z) (es_Ports sub)) ex_subsets_pos /\
  RepackSubsets (RepackSubsets ex_subsets_pos) = RepackSubsets ex_subsets_pos.
Proof. split; [|apply RepackSubsets_idempotent]; repeat constructor; simpl; lia. Defined.

(** C6, as the claim states it, fails: the grouping keeps only ports
    numbered above 0, so a subset whose only port is 0 comes out with no
    ports, and a second repack merges it with a port-less subset. *)
Lemma RepackSubsets_not_idempotent :
  RepackSubsets (RepackSubsets ex_subsets_port0) <> RepackSubsets ex_subsets_port0.
Proof. vm_compute. discriminate. Qed.

(* ================================================================= *)
(** * Further properties of the code *)

(** ** [sync] *)

Lemma logs_only_bind {A B} (m : M A) (k : A -> M B) :
  logs_only m -> (forall a, logs_only (k a)) -> logs_only (m ≫= k).
Proof.
  intros Hm Hk s r s' H. apply bind_inv in H as [(a & s1 & H1 & H2) | [(e & H1 & _) | (H1 & _)]].
  - destruct (Hm _ _ _ H1) as (? & ? & ?). destruct (Hk _ _ _ _ H2) as (? & ? & ?).
    repeat split; congruence.
  - by apply (Hm _ _ _ H1).
  - by apply (Hm _ _ _ H1).
Qed.

Lemma logs_only_ret {A} (a : A) : logs_only (mret a).
Proof. intros s r s' H. by inversion H. Qed.
Lemma logs_only_klog lvl msg : logs_only (klog lvl msg).
Proof. intros s r s' H. by inversion H. Qed.

Lemma logs_only_status_addresses pod networks sts addrs :
  logs_only (status_addresses pod networks sts addrs).
Proof.
  revert addrs. induction sts as [|x sts IH]; intros addrs; simpl; [apply logs_only_ret|].
  case_match; [|apply IH]. apply logs_only_bind; [apply logs_only_klog | intros; apply IH].
Qed.

Lemma logs_only_pod_ports pod sps ports : logs_only (pod_ports pod sps ports).
Proof.
  revert ports. induction sps as [|sp sps IH]; intros ports; simpl; [apply logs_only_ret|].
  case_match; try (apply logs_only_bind; [apply logs_only_klog | intros; apply IH]). apply IH.
Qed.

Lemma logs_only_sync_pods svc networks pods subsets :
  logs_only (sync_pods svc networks pods subsets).
Proof.
  revert subsets. induction pods as [|p pods IH]; intros subsets; simpl; [apply logs_only_ret|].
  case_match.
  - apply logs_only_bind; [apply logs_only_status_addresses | intros].
    apply logs_only_bind; [apply logs_only_pod_ports | intros; apply IH].
  - apply logs_only_bind; [apply logs_only_klog | intros; apply IH].
Qed.

Lemma status_addresses_val pod networks sts addrs s :
  exists s', status_addresses pod networks sts addrs s =
             (Ok (addrs ++ status_addrs pod networks sts), s').
Proof.
  revert addrs s. induction sts as [|x sts IH]; intros addrs s; simpl.
  - rewrite app_nil_r. by eexists.
  - case_match.
    + rewrite bind_klog_eval. destruct (IH (addrs ++ map (podEndpointAddress pod) (ns_IPs x))
        (append_log s {| log_Level := Info 3;
          log_Msg := "processing pod %s/%s: found network %s interface %s with IP addresses %s" |}))
        as [s' ->].
      rewrite <- app_assoc. by eexists.
    + apply IH.
Qed.

Lemma pod_ports_val pod sps ports s :
  exists s', pod_ports pod sps ports s = (Ok (ports ++ omap (port_of pod) sps), s').
Proof.
  revert ports s. induction sps as [|sp sps IH]; intros ports s; simpl.
  - rewrite app_nil_r. by eexists.
  - unfold port_of at 1. destruct (FindPort pod sp).
    + destruct (IH (ports ++ [{| ep_Port := int32_of_int a; ep_Protocol := sp_Protocol sp;
                                 ep_Name := sp_Name sp |}]) s) as [s' ->].
      rewrite <- app_assoc. by eexists.
    + rewrite bind_klog_eval. apply IH.
    + rewrite bind_klog_eval. apply IH.
Qed.

Lemma sync_pods_val svc networks pods subsets s :
  exists s', sync_pods svc networks pods subsets s =
             (Ok (subsets ++ omap (pod_subset svc networks) pods), s').
Proof.
  revert subsets s. induction pods as [|p pods IH]; intros subsets s; simpl.
  - rewrite app_nil_r. by eexists.
  - unfold pod_subset at 1. destruct (json_Unmarshal_statuses _) as [sts|].
    + unfold mbind at 1, M_bind at 1.
      destruct (status_addresses_val p networks sts [] s) as [s1 ->].
      unfold mbind at 1, M_bind at 1.
      destruct (pod_ports_val p (svc_Ports svc) [] s1) as [s2 ->]. simpl.
      destruct (IH (subsets ++ [{| es_Addresses := status_addrs p networks sts;
                                  es_NotReadyAddresses := [];
                                  es_Ports := omap (port_of p) (svc_Ports svc) |}]) s2) as [s3 ->].
      rewrite <- app_assoc. by eexists.
    + rewrite bind_klog_eval. apply IH.
Qed.

Lemma logs_only_endpointsGet namespace name : logs_only (endpointsGet namespace name).
Proof. intros s r s' H. unfold endpointsGet in H. case_match; by simplify_eq. Qed.

Lemma logs_only_log_on_error {A} lvl msg (m : M A) :
  logs_only m -> logs_only (log_on_error lvl msg m).
Proof.
  intros Hm s r s' H. unfold log_on_error in H.
  destruct (m s) as [[a|e|] s1] eqn:E.
  - simplify_eq. by apply (Hm _ _ _ E).
  - unfold mbind, M_bind, klog, fail in H. simpl in H. simplify_eq. simpl. by apply (Hm _ _ _ E).
  - simplify_eq. by apply (Hm _ _ _ E).
Qed.

#[local] Hint Extern 1 => discriminate : core.

Lemma sync_effect env key s r s' :
  sync env key s = (r, s') ->
  c_services (st_cache s') = c_services (st_cache s) /\
  c_pods (st_cache s') = c_pods (st_cache s) /\
  ((r <> Ok tt /\ c_endpoints (st_cache s') = c_endpoints (st_cache s) /\
    st_updates s' = st_updates s) \/
   exists namespace name svc networks ep,
     SplitMetaNamespaceKey key = Ok (namespace, name) /\
     c_services (st_cache s) !! store_key namespace name = Some svc /\
     Nat.eqb (String.length (getNetworkAnnotations (svc_Meta svc))) 0 = false /\
     parsePodNetworkSelections (getNetworkAnnotations (svc_Meta svc)) namespace = Ok networks /\
     Nat.ltb 1 (length networks) = false /\
     c_endpoints (st_cache s) !! store_key namespace name = Some ep /\
     c_endpoints (st_cache s') =
       <[store_key namespace name := synced_endpoints svc networks (c_pods (st_cache s)) ep]>
         (c_endpoints (st_cache s)) /\
     ((r = Ok tt /\
       env_updateErr env (synced_endpoints svc networks (c_pods (st_cache s)) ep) = None /\
       st_updates s' =
         st_updates s ++ [synced_endpoints svc networks (c_pods (st_cache s)) ep]) \/
      (exists e, r = Err e /\
         env_updateErr env (synced_endpoints svc networks (c_pods (st_cache s)) ep) = Some e /\
         st_updates s' = st_updates s))).
Proof.
  unfold sync. intros H.
  apply bind_inv in H as [([namespace name] & s1 & H1 & H) | [(e & H1 & ->) | (H1 & ->)]];
    unfold lift in H1; simplify_eq; [|auto 10..].
  apply bind_inv in H as [(svc & s2 & H2 & H) | [(e & H2 & ->) | (H2 & ->)]];
    unfold serviceGet in H2; [|repeat case_match; simplify_eq; auto 10..].
  destruct (c_services (st_cache s1) !! _) as [svc'|] eqn:Hsvc; simplify_eq.
  case_match; [unfold fail in H; simplify_eq; auto 10|].
  rename select (Nat.eqb _ 0 = false) into Hann.
  apply bind_inv in H as [(u & s3 & H3 & H) | [(e & H3 & ->) | (H3 & ->)]];
    unfold klog in H3; simplify_eq.
  apply bind_inv in H as [(networks & s4 & H4 & H) | [(e & H4 & ->) | (H4 & ->)]];
    unfold lift in H4; simplify_eq; [|simpl; auto 10..].
  case_match; [|rename select (Nat.ltb 1 _ = false) into Hlen].
  - unfold mbind, M_bind, klog, record_event, fail in H. simpl in H. simplify_eq. simpl. auto 10.
  - apply bind_inv in H as [(pods & s5 & H5 & H) | [(e & H5 & ->) | (H5 & ->)]];
      unfold podsList in H5; simplify_eq.
    pose proof (logs_only_log_on_error (Info 4) "error getting service endpoints: " _
                  (logs_only_endpointsGet namespace name)) as Hlog.
    apply bind_inv in H as [(ep & s6 & H6 & H) | [(e & H6 & ->) | (H6 & ->)]];
      pose proof (Hlog _ _ _ H6) as (C6 & E6 & U6); simpl in *;
      [|rewrite C6, U6; auto 10..].
    assert (Hep : c_endpoints (st_cache s2) !! store_key namespace name = Some ep).
    { unfold log_on_error, endpointsGet in H6. simpl in H6.
      destruct (c_endpoints (st_cache s2) !! store_key namespace name) eqn:E;
        simpl in H6; simplify_eq; try done. }
    destruct (sync_pods_val svc networks
      (filter (fun p => selector_matches (svc_Selector svc) (om_Labels (pod_Meta p)) = true)
              (c_pods (st_cache s2))) [] s6) as [s7 Hv].
    apply bind_inv in H as [(subsets & s7' & H7 & H) | [(e & H7 & ->) | (H7 & ->)]];
      rewrite Hv in H7; simplify_eq.
    pose proof (logs_only_sync_pods _ _ _ _ _ _ _ Hv) as (C7 & E7 & U7).
    apply bind_inv in H as [(u & s8 & H8 & H) | [(e & H8 & ->) | (H8 & ->)]];
      unfold store_endpoints in H8; simplify_eq.
    apply bind_inv in H as [(err & s9 & H9 & H) | [(e & H9 & ->) | (H9 & ->)]];
      unfold endpointsUpdate in H9; [|case_match; simplify_eq..].
    destruct (env_updateErr env _) as [e|] eqn:Eu; simplify_eq.
    + unfold mbind, M_bind, klog, fail in H. simpl in H. simplify_eq. simpl.
      rewrite C7, C6. split; [done|]. split; [done|]. right.
      exists namespace, name, svc, networks, ep. do 6 (split; [done|]). split; [done|].
      right. exists e. split; [done|]. split; [exact Eu|]. rewrite U7; exact U6.
    + unfold mbind, M_bind, klog, record_event, mret, M_ret in H. simpl in H. simplify_eq. simpl.
      rewrite C7, C6. split; [done|]. split; [done|]. right.
      exists namespace, name, svc, networks, ep. do 6 (split; [done|]). split; [done|].
      left. split; [done|]. split; [exact Eu|]. rewrite U7, U6. reflexivity.
Qed.

Lemma In_repack_out A G sub :
  In sub (repack_out A G) -> exists s ports, G !! s = Some ports /\ sub = build_subset A s ports.
Proof.
  unfold repack_out. intros H. apply in_map_iff in H as ([s ports] & <- & Hin).
  apply In_map_to_list_G in Hin. eauto.
Qed.

Lemma repack_addr_origin subsets sub a :
  In sub (RepackSubsets subsets) ->
  In a (es_Addresses sub ++ es_NotReadyAddresses sub) ->
  exists sub0, In sub0 subsets /\ In a (es_Addresses sub0 ++ es_NotReadyAddresses sub0).
Proof.
  rewrite RepackSubsets_run. intros Hsub Ha.
  apply In_repack_out in Hsub as (s & ports & HG & ->).
  assert (Hk : exists k, A_of (occ subsets) !! k = Some a).
  { unfold build_subset in Ha. simpl in Ha. apply in_app_iff in Ha as [Ha | Ha];
      apply In_omap in Ha as ([k r] & _ & Hf); exists k; destruct r; simpl in Hf; congruence. }
  destruct Hk as (k & Hk). apply run_A_origin in Hk as (x & Hx & <- & _).
  unfold occ in Hx. apply in_flat_map in Hx as (sub0 & Hsub0 & Hx).
  apply in_flat_map in Hx as (q & _ & Hx). apply subset_occ_elem in Hx as [_ Hx].
  exists sub0. split; [done|]. apply in_app_iff. destruct Hx as [[_ H] | [_ H]]; auto.
Qed.

Lemma occ_all_ready subsets x :
  (forall sub0, In sub0 subsets -> es_NotReadyAddresses sub0 = []) ->
  In x (occ subsets) -> x.2 = true.
Proof.
  intros Hall Hx. unfold occ in Hx. apply in_flat_map in Hx as (sub0 & Hsub0 & Hx).
  apply in_flat_map in Hx as (q & _ & Hx). apply subset_occ_elem in Hx as [_ [[-> _] | [_ Hin]]];
    [done|]. by rewrite (Hall sub0 Hsub0) in Hin.
Qed.

Lemma repack_ready subsets sub :
  (forall sub0, In sub0 subsets -> es_NotReadyAddresses sub0 = []) ->
  In sub (RepackSubsets subsets) -> es_NotReadyAddresses sub = [].
Proof.
  rewrite RepackSubsets_run. intros Hall Hsub.
  apply In_repack_out in Hsub as (s & ports & HG & ->).
  unfold build_subset. simpl.
  destruct (omap _ _) as [|a l] eqn:E; [done|]. exfalso.
  assert (Ha : In a (a :: l)) by (left; done). rewrite <- E in Ha.
  apply In_omap in Ha as ([k r] & Hin & Hf). apply In_map_to_list in Hin.
  destruct r; simpl in Hf; [discriminate|].
  destruct (G_origin _ s ports HG) as (p & Hp).
  assert (Hr : ready_at (P_of (occ subsets)) p k = Some false) by (unfold ready_at; by rewrite Hp).
  rewrite run_P_ready in Hr. apply occ_ready_Some in Hr as [(x & Hx & Hq & Hk') Hiff].
  destruct (proj1 Hiff eq_refl) as (y & Hy & _ & _ & Hy2).
  pose proof (occ_all_ready subsets y Hall Hy) as Hr. congruence.
Qed.

Lemma repack_port_origin subsets sub p :
  In sub (RepackSubsets subsets) -> In p (es_Ports sub) ->
  (0 < ep_Port p)%Z /\ exists sub0, In sub0 subsets /\ In p (es_Ports sub0).
Proof.
  rewrite RepackSubsets_run. intros Hsub Hp.
  apply In_repack_out in Hsub as (s & ports & HG & ->).
  unfold build_subset in Hp. simpl in Hp.
  apply list_elem_of_In, elem_of_elements in Hp.
  apply (G_mem _ s ports p HG) in Hp as [Hpos HP]. split; [done|].
  destruct (proj1 (run_P_presence (occ subsets) p) ltac:(eauto)) as (x & Hx & Hxp).
  unfold occ in Hx. apply in_flat_map in Hx as (sub0 & Hsub0 & Hx).
  apply in_flat_map in Hx as (q & Hq & Hx). apply subset_occ_elem in Hx as [Hxq _].
  assert (Hpq : p = q) by congruence. subst q.
  exists sub0. split; [done|]. unfold subset_ports in Hq.
  destruct (es_Ports sub0) as [|p0 ps]; [|by rewrite <- Hxp].
  destruct Hq as [Hs | []]. rewrite <- Hxp, <- Hs in Hpos. simpl in Hpos. lia.
Qed.

Lemma In_pod_subsets svc networks pods sub :
  In sub (omap (pod_subset svc networks) pods) ->
  exists pod sts, In pod pods /\
    json_Unmarshal_statuses (map_get (om_Annotations (pod_Meta pod)) statusesKey) = Some sts /\
    sub = {| es_Addresses := status_addrs pod networks sts; es_NotReadyAddresses := [];
             es_Ports := omap (port_of pod) (svc_Ports svc) |}.
Proof.
  intros H. apply In_omap in H as (pod & Hpod & Hf). unfold pod_subset in Hf.
  destruct (json_Unmarshal_statuses _) as [sts|] eqn:E; [|discriminate].
  injection Hf as <-. eauto.
Qed.

Lemma In_status_addrs pod networks sts a :
  In a (status_addrs pod networks sts) ->
  exists st ip, In st sts /\ isInNetworkSelectionElementsArray (ns_Name st) networks = true /\
    In ip (ns_IPs st) /\ a = podEndpointAddress pod ip.
Proof.
  unfold status_addrs. intros H. apply in_flat_map in H as (st & Hst & H).
  destruct (isInNetworkSelectionElementsArray _ _) eqn:E; [|done].
  apply in_map_iff in H as (ip & <- & Hip). eauto 10.
Qed.

Lemma In_selected_pods svc pods pod :
  In pod (selected_pods svc pods) ->
  In pod pods /\ selector_matches (svc_Selector svc) (om_Labels (pod_Meta pod)) = true.
Proof.
  unfold selected_pods. intros H. apply list_elem_of_In in H.
  apply list_elem_of_filter in H as [H1 H2]. split; [by apply list_elem_of_In | done].
Qed.

Lemma synced_address_origin svc networks pods ep sub a :
  In sub (eps_Subsets (synced_endpoints svc networks pods ep)) ->
  In a (es_Addresses sub) ->
  exists pod sts st ip,
    In pod pods /\ selector_matches (svc_Selector svc) (om_Labels (pod_Meta pod)) = true /\
    json_Unmarshal_statuses (map_get (om_Annotations (pod_Meta pod)) statusesKey) = Some sts /\
    In st sts /\ isInNetworkSelectionElementsArray (ns_Name st) networks = true /\
    In ip (ns_IPs st) /\ a = podEndpointAddress pod ip.
Proof.
  simpl. intros Hsub Ha.
  destruct (repack_addr_origin _ sub a Hsub ltac:(apply in_app_iff; by left)) as (sub0 & H0 & Ha0).
  apply In_pod_subsets in H0 as (pod & sts & Hpod & Hsts & ->). simpl in Ha0.
  rewrite app_nil_r in Ha0. apply In_status_addrs in Ha0 as (st & ip & Hst & Hin & Hip & ->).
  apply In_selected_pods in Hpod as [Hpod Hsel]. exists pod, sts, st, ip. auto 10.
Qed.

Lemma synced_ready svc networks pods ep sub :
  In sub (eps_Subsets (synced_endpoints svc networks pods ep)) -> es_NotReadyAddresses sub = [].
Proof.
  simpl. apply repack_ready. intros sub0 H0.
  by apply In_pod_subsets in H0 as (pod & sts & _ & _ & ->).
Qed.

Lemma synced_port_origin svc networks pods ep sub p :
  In sub (eps_Subsets (synced_endpoints svc networks pods ep)) -> In p (es_Ports sub) ->
  (0 < ep_Port p)%Z /\
  exists pod sp, In pod pods /\ selector_matches (svc_Selector svc) (om_Labels (pod_Meta pod)) = true /\
    In sp (svc_Ports svc) /\ port_of pod sp = Some p.
Proof.
  simpl. intros Hsub Hp.
  destruct (repack_port_origin _ sub p Hsub Hp) as [Hpos (sub0 & H0 & Hp0)]. split; [done|].
  apply In_pod_subsets in H0 as (pod & sts & Hpod & _ & ->). simpl in Hp0.
  apply In_omap in Hp0 as (sp & Hsp & Hf). apply In_selected_pods in Hpod as [Hpod Hsel].
  exists pod, sp. auto.
Qed.

(** X1: [sync] never changes the service or pod caches. When it returns
    no error it has issued exactly one Endpoints update, and the cached
    Endpoints at the key is the object it wrote; when it returns an error
    (or panics) it has issued no successful update. *)
Theorem sync_writes_once_on_success env key s r s' :
  sync env key s = (r, s') ->
  c_services (st_cache s') = c_services (st_cache s) /\
  c_pods (st_cache s') = c_pods (st_cache s) /\
  (r = Ok tt -> exists namespace name ep',
     SplitMetaNamespaceKey key = Ok (namespace, name) /\
     st_updates s' = st_updates s ++ [ep'] /\
     c_endpoints (st_cache s') = <[store_key namespace name := ep']> (c_endpoints (st_cache s))) /\
  (r <> Ok tt -> st_updates s' = st_updates s).
Proof.
  intros H. destruct (sync_effect env key s r s' H) as (Hs & Hp & [(Hr & He & Hu) | Hx]).
  - do 3 (split; [done|]). done.
  - destruct Hx as (namespace & name & svc & networks & ep & Hk & _ & _ & _ & _ & _ & Hc & Hres).
    do 2 (split; [done|]). split.
    + intros ->. destruct Hres as [(_ & _ & Hu) | (e & He & _)]; [|discriminate].
      eauto 10.
    + intros Hr. destruct Hres as [(-> & _) | (e & _ & _ & Hu)]; [done|exact Hu].
Qed.

(** X2: when [sync] returns an error, either the cached Endpoints are
    untouched, or the error is the one the API server gave for the update
    and the cache at the key already holds the object that was rejected. *)
Theorem sync_failed_update_keeps_cache env key s e s' :
  sync env key s = (Err e, s') ->
  c_endpoints (st_cache s') = c_endpoints (st_cache s) \/
  exists namespace name ep',
    SplitMetaNamespaceKey key = Ok (namespace, name) /\
    env_updateErr env ep' = Some e /\
    c_endpoints (st_cache s') = <[store_key namespace name := ep']> (c_endpoints (st_cache s)).
Proof.
  intros H. destruct (sync_effect env key s _ s' H) as (_ & _ & [(_ & He & _) | Hx]); [by left|].
  destruct Hx as (namespace & name & svc & networks & ep & Hk & _ & _ & _ & _ & _ & Hc & Hres).
  destruct Hres as [(Hr & _) | (e' & Hr & Hu & _)]; [discriminate|]. injection Hr as <-.
  right. exists namespace, name, (synced_endpoints svc networks (c_pods (st_cache s)) ep). auto.
Qed.

(** X3: every address [sync] writes is ready (no not-ready addresses)
    and is the address of a pod of the cache matching the service's
    selector, for an IP listed by a decoded network status of that pod
    whose name is one of the service's selected networks. *)
Theorem sync_written_addresses env key s s' :
  sync env key s = (Ok tt, s') ->
  exists namespace name svc networks ep',
    SplitMetaNamespaceKey key = Ok (namespace, name) /\
    c_services (st_cache s) !! store_key namespace name = Some svc /\
    parsePodNetworkSelections (getNetworkAnnotations (svc_Meta svc)) namespace = Ok networks /\
    st_updates s' = st_updates s ++ [ep'] /\
    forall sub, In sub (eps_Subsets ep') ->
      es_NotReadyAddresses sub = [] /\
      forall a, In a (es_Addresses sub) ->
        exists pod sts st ip,
          In pod (c_pods (st_cache s)) /\
          selector_matches (svc_Selector svc) (om_Labels (pod_Meta pod)) = true /\
          json_Unmarshal_statuses (map_get (om_Annotations (pod_Meta pod)) statusesKey) = Some sts /\
          In st sts /\ isInNetworkSelectionElementsArray (ns_Name st) networks = true /\
          In ip (ns_IPs st) /\ a = podEndpointAddress pod ip.
Proof.
  intros H. destruct (sync_effect env key s _ s' H) as (_ & _ & [(Hr & _) | Hx]); [done|].
  destruct Hx as (namespace & name & svc & networks & ep & Hk & Hs & _ & Hn & _ & _ & _ & Hres).
  destruct Hres as [(_ & _ & Hu) | (e & Hr & _)]; [|discriminate].
  exists namespace, name, svc, networks, (synced_endpoints svc networks (c_pods (st_cache s)) ep).
  do 4 (split; [done|]). intros sub Hsub. split; [by eapply synced_ready|].
  intros a Ha. by eapply synced_address_origin.
Qed.

(** X4: the Endpoints [sync] writes is owned by the service alone, and
    each of its ports is numbered above 0 and is the port [FindPort]
    resolves for a service port on a selected pod. *)
Theorem sync_written_ports env key s s' :
  sync env key s = (Ok tt, s') ->
  exists namespace name svc ep',
    SplitMetaNamespaceKey key = Ok (namespace, name) /\
    c_services (st_cache s) !! store_key namespace name = Some svc /\
    st_updates s' = st_updates s ++ [ep'] /\
    eps_OwnerReferences ep' = [NewControllerRef svc] /\
    forall sub p, In sub (eps_Subsets ep') -> In p (es_Ports sub) ->
      (0 < ep_Port p)%Z /\
      exists pod sp, In pod (c_pods (st_cache s)) /\
        selector_matches (svc_Selector svc) (om_Labels (pod_Meta pod)) = true /\
        In sp (svc_Ports svc) /\ port_of pod sp = Some p.
Proof.
  intros H. destruct (sync_effect env key s _ s' H) as (_ & _ & [(Hr & _) | Hx]); [done|].
  destruct Hx as (namespace & name & svc & networks & ep & Hk & Hs & _ & Hn & _ & _ & _ & Hres).
  destruct Hres as [(_ & _ & Hu) | (e & Hr & _)]; [|discriminate].
  exists namespace, name, svc, (synced_endpoints svc networks (c_pods (st_cache s)) ep).
  do 4 (split; [done|]). intros sub p Hsub Hp. by eapply synced_port_origin.
Qed.

Lemma sync_writes_once_on_success_witness :
  let s := ex_st (ex_cache "other/foo" [ex_pod1; ex_pod2]) in
  let s' := snd (sync ex_env "default/svc1" s) in
  sync ex_env "default/svc1" s = (Ok tt, s') /\
  c_services (st_cache s') = c_services (st_cache s) /\
  c_pods (st_cache s') = c_pods (st_cache s) /\
  (Ok tt = Ok tt -> exists namespace name ep',
     SplitMetaNamespaceKey "default/svc1" = Ok (namespace, name) /\
     st_updates s' = st_updates s ++ [ep'] /\
     c_endpoints (st_cache s') = <[store_key namespace name := ep']> (c_endpoints (st_cache s))) /\
  (Ok tt <> Ok tt -> st_updates s' = st_updates s).
Proof.
  intros s s'. split; [vm_compute; reflexivity|].
  apply (sync_writes_once_on_success ex_env "default/svc1" s (Ok tt) s'). vm_compute. reflexivity.
Defined.

Lemma sync_failed_update_keeps_cache_witness :
  let s := ex_st (ex_cache "other/foo" [ex_pod1]) in
  let s' := snd (sync ex_env_reject "default/svc1" s) in
  sync ex_env_reject "default/svc1" s = (Err "conflict", s') /\
  (c_endpoints (st_cache s') = c_endpoints (st_cache s) \/
   exists namespace name ep',
     SplitMetaNamespaceKey "default/svc1" = Ok (namespace, name) /\
     env_updateErr ex_env_reject ep' = Some "conflict" /\
     c_endpoints (st_cache s') = <[store_key namespace name := ep']> (c_endpoints (st_cache s))).
Proof.
  intros s s'. split; [vm_compute; reflexivity|].
  apply (sync_failed_update_keeps_cache ex_env_reject "default/svc1" s "conflict" s').
  vm_compute. reflexivity.
Defined.

Lemma sync_written_addresses_witness :
  let s := ex_st (ex_cache "other/foo" [ex_pod1; ex_pod2]) in
  let s' := snd (sync ex_env "default/svc1" s) in
  sync ex_env "default/svc1" s = (Ok tt, s') /\
  exists namespace name svc networks ep',
    SplitMetaNamespaceKey "default/svc1" = Ok (namespace, name) /\
    c_services (st_cache s) !! store_key namespace name = Some svc /\
    parsePodNetworkSelections (getNetworkAnnotations (svc_Meta svc)) namespace = Ok networks /\
    st_updates s' = st_updates s ++ [ep'] /\
    forall sub, In sub (eps_Subsets ep') ->
      es_NotReadyAddresses sub = [] /\
      forall a, In a (es_Addresses sub) ->
        exists pod sts st ip,
          In pod (c_pods (st_cache s)) /\
          selector_matches (svc_Selector svc) (om_Labels (pod_Meta pod)) = true /\
          json_Unmarshal_statuses (map_get (om_Annotations (pod_Meta pod)) statusesKey) = Some sts /\
          In st sts /\ isInNetworkSelectionElementsArray (ns_Name st) networks = true /\
          In ip (ns_IPs st) /\ a = podEndpointAddress pod ip.
Proof.
  intros s s'. split; [vm_compute; reflexivity|].
  apply (sync_written_addresses ex_env "default/svc1" s s'). vm_compute. reflexivity.
Defined.

Lemma sync_written_ports_witness :
  let s := ex_st (ex_cache "other/foo" [ex_pod1; ex_pod2]) in
  let s' := snd (sync ex_env "default/svc1" s) in
  sync ex_env "default/svc1" s = (Ok tt, s') /\
  exists namespace name svc ep',
    SplitMetaNamespaceKey "default/svc1" = Ok (namespace, name) /\
    c_services (st_cache s) !! store_key namespace name = Some svc /\
    st_updates s' = st_updates s ++ [ep'] /\
    eps_OwnerReferences ep' = [NewControllerRef svc] /\
    forall sub p, In sub (eps_Subsets ep') -> In p (es_Ports sub) ->
      (0 < ep_Port p)%Z /\
      exists pod sp, In pod (c_pods (st_cache s)) /\
        selector_matches (svc_Selector svc) (om_Labels (pod_Meta pod)) = true /\
        In sp (svc_Ports svc) /\ port_of pod sp = Some p.
Proof.
  intros s s'. split; [vm_compute; reflexivity|].
  apply (sync_written_ports ex_env "default/svc1" s s'). vm_compute. reflexivity.
Defined.

(** ** The selection parser *)

Lemma Split_app_sep (a b : string) (sep : ascii) :
  count_char sep a = 0 -> Split (a +:+ String sep b) sep = a :: Split b sep.
Proof.
  induction a as [|c r IH]; simpl.
  - by rewrite Ascii.eqb_refl.
  - destruct (Ascii.eqb c sep); [lia|]. simpl. intros H. by rewrite IH.
Qed.

Lemma count_char_app c a b : count_char c (a +:+ b) = count_char c a + count_char c b.
Proof. induction a as [|x r IH]; simpl; [done|]. rewrite IH. lia. Qed.

Lemma valid_no_char (s : string) (c : ascii) :
  is_lower_alnum c = false -> is_dash c = false ->
  s = "" \/ validNameRegex_MatchString s = true -> count_char c s = 0.
Proof.
  intros H1 H2 [-> | Hv]; [done|].
  destruct s as [|a r]; [discriminate|]. simpl in *.
  apply andb_prop in Hv as [Ha Hr].
  destruct (Ascii.eqb_spec a c) as [-> | _]; [congruence|].
  apply validNameTail_no_char; auto.
Qed.

Lemma first_invalid_unit_all_ok (l : list string) :
  Forall (fun x => x = "" \/ validNameRegex_MatchString x = true) l ->
  first_invalid_unit l = None.
Proof.
  induction 1 as [|x l [-> | Hx] _ IH]; simpl; [done| |]; [done|].
  rewrite Hx. simpl. done.
Qed.

Lemma check_units_all_ok ns n i :
  ns = "" \/ validNameRegex_MatchString ns = true ->
  n = "" \/ validNameRegex_MatchString n = true ->
  i = "" \/ validNameRegex_MatchString i = true ->
  check_units ns n i =
    Ok {| nse_Namespace := ns; nse_Name := n; nse_InterfaceRequest := i |}.
Proof.
  intros Hns Hn Hi. unfold check_units. rewrite first_invalid_unit_all_ok; [done|].
  repeat (constructor; [assumption|]); constructor.
Qed.

Ltac no_char := apply valid_no_char; [reflexivity | reflexivity | assumption].

(** X5: a selection written [namespace/name@interface] or
    [namespace/name] from units that are empty or valid parses back to
    those units; the default namespace plays no part. *)
Theorem element_qualified_roundtrip ns n i d :
  ns = "" \/ validNameRegex_MatchString ns = true ->
  n = "" \/ validNameRegex_MatchString n = true ->
  i = "" \/ validNameRegex_MatchString i = true ->
  parsePodNetworkSelectionElement (ns +:+ "/" +:+ n +:+ "@" +:+ i) d =
    Ok {| nse_Namespace := ns; nse_Name := n; nse_InterfaceRequest := i |} /\
  parsePodNetworkSelectionElement (ns +:+ "/" +:+ n) d =
    Ok {| nse_Namespace := ns; nse_Name := n; nse_InterfaceRequest := "" |}.
Proof.
  intros Hns Hn Hi. unfold parsePodNetworkSelectionElement.
  assert (Sn : count_char "/" ns = 0) by no_char.
  assert (Sn' : count_char "/" n = 0) by no_char.
  assert (Si : count_char "/" i = 0) by no_char.
  assert (An : count_char "@" n = 0) by no_char.
  change ("/" +:+ ?x) with (String "/" x). change ("@" +:+ ?x) with (String "@" x).
  rewrite !Split_app_sep by done.
  rewrite (Split_no_sep (n +:+ String "@" i) "/"); [|rewrite count_char_app; simpl; lia].
  rewrite (Split_no_sep n "/") by done. simpl.
  rewrite Split_app_sep by done. rewrite (Split_no_sep i "@"); [|no_char].
  rewrite (Split_no_sep n "@") by done.
  split; apply check_units_all_ok; auto.
Qed.

(** X6: a selection without a slash takes the default namespace, and
    parses back to its units when they and the default namespace are
    empty or valid. *)
Theorem element_bare_roundtrip n i d :
  d = "" \/ validNameRegex_MatchString d = true ->
  n = "" \/ validNameRegex_MatchString n = true ->
  i = "" \/ validNameRegex_MatchString i = true ->
  parsePodNetworkSelectionElement (n +:+ "@" +:+ i) d =
    Ok {| nse_Namespace := d; nse_Name := n; nse_InterfaceRequest := i |} /\
  parsePodNetworkSelectionElement n d =
    Ok {| nse_Namespace := d; nse_Name := n; nse_InterfaceRequest := "" |}.
Proof.
  intros Hd Hn Hi. unfold parsePodNetworkSelectionElement.
  assert (Sn : count_char "/" n = 0) by no_char.
  assert (Si : count_char "/" i = 0) by no_char.
  assert (An : count_char "@" n = 0) by no_char.
  assert (Ai : count_char "@" i = 0) by no_char.
  change ("@" +:+ ?x) with (String "@" x).
  rewrite (Split_no_sep (n +:+ String "@" i) "/"); [|rewrite count_char_app; simpl; lia].
  rewrite (Split_no_sep n "/") by done. simpl.
  rewrite Split_app_sep by done. rewrite (Split_no_sep i "@") by done.
  rewrite (Split_no_sep n "@") by done.
  split; apply check_units_all_ok; auto.
Qed.

(** X7: a non-empty default namespace that does not match the name
    pattern makes every selection without a slash (and with at most one
    at-sign) fail, the error naming the default namespace. *)
Theorem element_bare_invalid_default sel d :
  count_char "/" sel = 0 -> count_char "@" sel <= 1 ->
  d <> "" -> validNameRegex_MatchString d = false ->
  parsePodNetworkSelectionElement sel d =
    Err ("at least one of the network selection units is invalid: error found at " +:+ squote d).
Proof.
  intros Hs Ha Hd Hv. unfold parsePodNetworkSelectionElement.
  rewrite (Split_no_sep sel "/" Hs). simpl.
  assert (Hf : forall n i, check_units d n i =
    Err ("at least one of the network selection units is invalid: error found at " +:+ squote d)).
  { intros n i. unfold check_units. simpl. rewrite Hv.
    destruct (String.eqb_spec d "") as [-> | _]; [done|]. reflexivity. }
  pose proof (Split_length sel "@") as Hl.
  destruct (Split sel "@") as [|n [|i [|? ?]]]; simpl in Hl; try lia; apply Hf.
Qed.

Lemma element_qualified_roundtrip_witness :
  parsePodNetworkSelectionElement ("kube-system" +:+ "/" +:+ "macvlan-conf" +:+ "@" +:+ "net1") "default" =
    Ok {| nse_Namespace := "kube-system"; nse_Name := "macvlan-conf"; nse_InterfaceRequest := "net1" |} /\
  parsePodNetworkSelectionElement ("kube-system" +:+ "/" +:+ "macvlan-conf") "default" =
    Ok {| nse_Namespace := "kube-system"; nse_Name := "macvlan-conf"; nse_InterfaceRequest := "" |}.
Proof.
  apply element_qualified_roundtrip; right; vm_compute; reflexivity.
Defined.

Lemma element_bare_roundtrip_witness :
  parsePodNetworkSelectionElement ("macvlan-conf" +:+ "@" +:+ "") "default" =
    Ok {| nse_Namespace := "default"; nse_Name := "macvlan-conf"; nse_InterfaceRequest := "" |} /\
  parsePodNetworkSelectionElement "macvlan-conf" "default" =
    Ok {| nse_Namespace := "default"; nse_Name := "macvlan-conf"; nse_InterfaceRequest := "" |}.
Proof.
  apply element_bare_roundtrip; [right | right | left]; vm_compute; reflexivity.
Defined.

Lemma element_bare_invalid_default_witness :
  parsePodNetworkSelectionElement "macvlan-conf@net1" "Default" =
    Err ("at least one of the network selection units is invalid: error found at " +:+ squote "Default").
Proof.
  apply element_bare_invalid_default; [reflexivity | simpl; lia | discriminate | reflexivity].
Defined.

Lemma parse_comma_units_all units d acc es :
  Forall2 (fun u e => parsePodNetworkSelectionElement (TrimSpace u) d = Ok e) units es ->
  parse_comma_units units d acc = Ok (acc ++ map Some es).
Proof.
  intros H. revert acc. induction H as [|u e units es He _ IH]; intros acc; simpl.
  - by rewrite app_nil_r.
  - rewrite He, IH, <- app_assoc. reflexivity.
Qed.

Lemma fill_missing_namespaces_some d es :
  fill_missing_namespaces d (map Some es) = Ok (map (fill_namespace d) es).
Proof. induction es as [|e es IH]; simpl; [done|]. by rewrite IH. Qed.

(** X8: an annotation that is not JSON and whose comma-separated units
    all parse gives one element per unit, in order: the unit's parse with
    an empty namespace replaced by the default one. *)
Theorem comma_list_elementwise s d es :
  String.length s <> 0 -> json_parse s = None ->
  Forall2 (fun u e => parsePodNetworkSelectionElement (TrimSpace u) d = Ok e) (Split s ",") es ->
  parsePodNetworkSelections s d = Ok (map (fill_namespace d) es).
Proof.
  intros Hl Hj Hall. unfold parsePodNetworkSelections.
  destruct (Nat.eqb_spec (String.length s) 0) as [E|_]; [done|].
  unfold json_Unmarshal_selections. rewrite Hj.
  rewrite (parse_comma_units_all _ _ _ es Hall). simpl. apply fill_missing_namespaces_some.
Qed.

Lemma comma_list_elementwise_witness :
  parsePodNetworkSelections "macvlan-conf, kube-system/sriov@net2" "default" =
  Ok [{| nse_Name := "macvlan-conf"; nse_Namespace := "default"; nse_InterfaceRequest := "" |};
      {| nse_Name := "sriov"; nse_Namespace := "kube-system"; nse_InterfaceRequest := "net2" |}].
Proof.
  apply (comma_list_elementwise _ _
    [{| nse_Name := "macvlan-conf"; nse_Namespace := "default"; nse_InterfaceRequest := "" |};
     {| nse_Name := "sriov"; nse_Namespace := "kube-system"; nse_InterfaceRequest := "net2" |}]).
  - simpl. lia.
  - vm_compute. reflexivity.
  - vm_compute. repeat constructor.
Defined.

(** ** Event handlers, work queue, [worker] and [handleNetAttachDefDeleteEvent] *)
















Lemma worker_step_shutdown q k rest :
  q_shuttingDown q = true -> q_queue q = k :: rest ->
  exists q1, queue_Get q = Some (Some k, q1) /\ q_queue (queue_Done k q1) = rest /\
             q_shuttingDown (queue_Done k q1) = true.
Proof.
  intros Hs Hq. unfold queue_Get. rewrite Hq. eexists. split; [reflexivity|].
  unfold queue_Done. simpl. rewrite bool_decide_false by set_solver. auto.
Qed.

Lemma worker_S env f q s :
  worker (S f) env q s =
  match processNextWorkItem env q s with
  | (Ok None, s') => (Ok None, s')
  | (Ok (Some (false, q')), s') => (Ok (Some q'), s')
  | (Ok (Some (true, q')), s') => worker f env q' s'
  | (Err e, s') => (Err e, s')
  | (Panic, s') => (Panic, s')
  end.
Proof.
  simpl. unfold mbind at 1, M_bind at 1.
  destruct (processNextWorkItem env q s) as [[[[[|] q']|]|e|] s']; reflexivity.
Qed.

Lemma processNextWorkItem_get env q k q1 s :
  queue_Get q = Some (Some k, q1) ->
  (exists s', processNextWorkItem env q s = (Ok (Some (true, queue_Done k q1)), s')) \/
  (exists s', processNextWorkItem env q s = (Panic, s')).
Proof.
  intros Hg. unfold processNextWorkItem. rewrite Hg.
  unfold mbind, M_bind, sync_err. cbv beta.
  destruct (sync env k s) as [[u|e|] s1].
  - left. eexists. reflexivity.
  - left. eexists. reflexivity.
  - right. eexists. reflexivity.
Qed.

(** X10: once the queue is shut down, [worker] stops after at most one
    iteration per queued key plus one, with the queue empty, unless a
    [sync] panicked. *)
Theorem worker_drains_after_shutdown env q s :
  q_shuttingDown q = true ->
  (exists q' s', worker (S (length (q_queue q))) env q s = (Ok (Some q'), s') /\ q_queue q' = []) \/
  (exists s', worker (S (length (q_queue q))) env q s = (Panic, s')).
Proof.
  remember (length (q_queue q)) as n eqn:En. revert q s En.
  induction n as [|n IH]; intros q s En Hs.
  - left. destruct (q_queue q) eqn:Eq; [|discriminate]. exists q, s. split; [|done].
    simpl. unfold processNextWorkItem, queue_Get. rewrite Eq, Hs. reflexivity.
  - destruct (q_queue q) as [|k rest] eqn:Eq; [discriminate|]. simpl in En.
    destruct (worker_step_shutdown q k rest Hs Eq) as (q1 & Hg & Hr & Hs1).
    rewrite worker_S.
    destruct (processNextWorkItem_get env q k q1 s Hg) as [[s1 ->] | [s1 ->]].
    + apply IH; [rewrite Hr; lia | exact Hs1].
    + right. by eexists.
Qed.

Lemma MetaNamespaceKeyFunc_meta obj m :
  obj_meta obj = Some m -> MetaNamespaceKeyFunc obj = Ok (MetaNamespaceKey m).
Proof. unfold MetaNamespaceKeyFunc, MetaNamespaceKey. intros ->. by destruct (Nat.ltb _ _). Qed.

Lemma Split_key (ns name : string) :
  count_char "/" ns = 0 -> count_char "/" name = 0 ->
  Split (ns +:+ "/" +:+ name) "/" = [ns; name].
Proof.
  intros Hns Hn. change ("/" +:+ name) with (String "/" name).
  by rewrite Split_app_sep, (Split_no_sep name "/" Hn).
Qed.

(** X11: the key [handleServiceEvent] queues for a service whose
    namespace and name contain no slash splits back into that namespace
    and name, as [sync] splits it. *)
Theorem service_key_roundtrip svc q :
  count_char "/" (om_Namespace (svc_Meta svc)) = 0 ->
  count_char "/" (om_Name (svc_Meta svc)) = 0 ->
  exists key, handleServiceEvent (ObjService svc) q = queue_Add key q /\
    SplitMetaNamespaceKey key = Ok (om_Namespace (svc_Meta svc), om_Name (svc_Meta svc)).
Proof.
  intros Hns Hn. exists (MetaNamespaceKey (svc_Meta svc)).
  unfold handleServiceEvent. rewrite (MetaNamespaceKeyFunc_meta _ (svc_Meta svc)) by done.
  split; [done|]. unfold MetaNamespaceKey, SplitMetaNamespaceKey.
  destruct (Nat.ltb_spec 0 (String.length (om_Namespace (svc_Meta svc)))) as [Hl | Hl].
  - by rewrite Split_key.
  - destruct (om_Namespace (svc_Meta svc)); [|simpl in Hl; lia].
    by rewrite (Split_no_sep _ "/" Hn).
Qed.












(** X13: a deletion delivered as a tombstone (an object without
    metadata) is ignored by the service and pod handlers and makes the
    endpoints handler panic on its type assertion. *)
Theorem tombstone_handling key q cache g :
  serviceHandlers (OnDelete (ObjTombstone key)) q = Ok q /\
  podHandlers g (OnDelete (ObjTombstone key)) q = Ok q /\
  endpointsHandlers cache (OnDelete (ObjTombstone key)) q = Panic.
Proof. repeat split. Qed.





Lemma worker_drains_after_shutdown_witness :
  let q := queue_ShutDown (queue_Add "default/svc1" empty_queue) in
  let s := ex_st (ex_cache "other/foo" [ex_pod1]) in
  q_shuttingDown q = true /\
  ((exists q' s', worker (S (length (q_queue q))) ex_env q s = (Ok (Some q'), s') /\ q_queue q' = []) \/
   (exists s', worker (S (length (q_queue q))) ex_env q s = (Panic, s'))).
Proof.
  intros q s. split; [reflexivity|].
  apply (worker_drains_after_shutdown ex_env q s). reflexivity.
Defined.

Lemma service_key_roundtrip_witness :
  count_char "/" (om_Namespace (svc_Meta (ex_svc "other/foo"))) = 0 /\
  count_char "/" (om_Name (svc_Meta (ex_svc "other/foo"))) = 0 /\
  exists key, handleServiceEvent (ObjService (ex_svc "other/foo")) empty_queue = queue_Add key empty_queue /\
    SplitMetaNamespaceKey key = Ok (om_Namespace (svc_Meta (ex_svc "other/foo")),
                                    om_Name (svc_Meta (ex_svc "other/foo"))).
Proof.
  split; [reflexivity|]. split; [reflexivity|].
  apply (service_key_roundtrip (ex_svc "other/foo") empty_queue); reflexivity.
Defined.



(** ** [RepackSubsets] *)

Lemma build_addr_in A s ports k r a :
  s !! k = Some r -> A !! k = Some a ->
  In a (es_Addresses (build_subset A s ports) ++ es_NotReadyAddresses (build_subset A s ports)).
Proof.
  intros Hk Ha. destruct (subset_ports_nonempty (build_subset A s ports)) as [q Hq].
  assert (Hx : In (a, q, r) (subset_occ (build_subset A s ports) q))
    by (apply build_occ_elem; simpl; eauto).
  apply subset_occ_elem in Hx as [_ [[_ H] | [_ H]]]; apply in_app_iff; auto.
Qed.

Lemma In_repack_build A G s ports :
  G !! s = Some ports -> In (build_subset A s ports) (repack_out A G).
Proof.
  intros HG. unfold repack_out. apply in_map_iff. exists (s, ports). split; [done|].
  by apply In_map_to_list_G.
Qed.

(** X15: every subset [RepackSubsets] returns has an address; each of
    its addresses comes from an input subset, and each of its ports is
    numbered above 0 and comes from an input subset. *)
Theorem RepackSubsets_sound subsets sub :
  In sub (RepackSubsets subsets) ->
  es_Addresses sub ++ es_NotReadyAddresses sub <> [] /\
  (forall a, In a (es_Addresses sub ++ es_NotReadyAddresses sub) ->
     exists sub0, In sub0 subsets /\ In a (es_Addresses sub0 ++ es_NotReadyAddresses sub0)) /\
  (forall p, In p (es_Ports sub) ->
     (0 < ep_Port p)%Z /\ exists sub0, In sub0 subsets /\ In p (es_Ports sub0)).
Proof.
  intros Hsub. split; [|split].
  - revert Hsub. rewrite RepackSubsets_run. intros Hsub.
    apply In_repack_out in Hsub as (s & ports & HG & ->).
    destruct (G_origin _ _ _ HG) as [q Hq].
    destruct (run_P_nonempty _ _ _ Hq) as (k & r & Hk).
    destruct (run_P_in_A _ _ _ _ _ Hq Hk) as [a Ha].
    intros Hnil. pose proof (build_addr_in _ _ ports _ _ _ Hk Ha) as H.
    rewrite Hnil in H. done.
  - intros a. by apply repack_addr_origin.
  - intros p. by apply repack_port_origin.
Qed.

(** X16: [RepackSubsets] drops no address: for every address of an
    input subset, some output subset has an address with the same IP and
    target UID. *)
Theorem RepackSubsets_complete subsets sub0 a :
  In sub0 subsets -> In a (es_Addresses sub0 ++ es_NotReadyAddresses sub0) ->
  exists sub a', In sub (RepackSubsets subsets) /\
    In a' (es_Addresses sub ++ es_NotReadyAddresses sub) /\ addrKey a' = addrKey a.
Proof.
  intros Hsub0 Ha. rewrite RepackSubsets_run.
  destruct (subset_ports_nonempty sub0) as [q Hq].
  assert (Hx : exists r, In (a, q, r) (occ subsets)).
  { unfold occ. apply in_app_iff in Ha as [Ha | Ha]; [exists true | exists false];
      apply in_flat_map; exists sub0; split; auto; apply in_flat_map; exists q; split; auto;
      apply subset_occ_elem; simpl; auto. }
  destruct Hx as [r0 Hx].
  destruct (run_P_has _ _ Hx) as (s & r & Hs & Hr). simpl in Hs, Hr.
  destruct (G_some _ _ _ Hs) as [ports HG].
  destruct (run_P_in_A _ _ _ _ _ Hs Hr) as [a' Ha'].
  exists (build_subset (A_of (occ subsets)) s ports), a'. split; [by apply In_repack_build|].
  split; [by eapply build_addr_in|]. by apply run_A_key in Ha'.
Qed.

Lemma RepackSubsets_sound_witness :
  let sub := nth 0 (RepackSubsets ex_subsets_pos) (Build_EndpointSubset [] [] []) in
  In sub (RepackSubsets ex_subsets_pos) /\
  es_Addresses sub ++ es_NotReadyAddresses sub <> [] /\
  (forall a, In a (es_Addresses sub ++ es_NotReadyAddresses sub) ->
     exists sub0, In sub0 ex_subsets_pos /\ In a (es_Addresses sub0 ++ es_NotReadyAddresses sub0)) /\
  (forall p, In p (es_Ports sub) ->
     (0 < ep_Port p)%Z /\ exists sub0, In sub0 ex_subsets_pos /\ In p (es_Ports sub0)).
Proof.
  intros sub. assert (H : In sub (RepackSubsets ex_subsets_pos)) by (vm_compute; left; reflexivity).
  split; [exact H|]. exact (RepackSubsets_sound ex_subsets_pos sub H).
Defined.

Lemma RepackSubsets_complete_witness :
  In (nth 0 ex_subsets_pos (Build_EndpointSubset [] [] [])) ex_subsets_pos /\
  In (ex_ip_address "10.0.0.3")
     (es_Addresses (nth 0 ex_subsets_pos (Build_EndpointSubset [] [] [])) ++
      es_NotReadyAddresses (nth 0 ex_subsets_pos (Build_EndpointSubset [] [] []))) /\
  exists sub a', In sub (RepackSubsets ex_subsets_pos) /\
    In a' (es_Addresses sub ++ es_NotReadyAddresses sub) /\
    addrKey a' = addrKey (ex_ip_address "10.0.0.3").
Proof.
  split; [left; reflexivity|]. split; [simpl; auto|].
  apply (RepackSubsets_complete ex_subsets_pos (nth 0 ex_subsets_pos (Build_EndpointSubset [] [] []))).
  - left. reflexivity.
  - simpl. auto.
Defined.
